(** * LED wand (led_wand.c): font encoder, motion-edge interrupt and display loop

    A shallow embedding of [led_wand.c] and the properties of its three
    components: [convertMessageStringToSegments] (message to bitmap
    frames), [ISR] (comparator-edge interrupt with its two debounce
    thresholds) and [runLEDSequence]/[delay]/[main] (rendering).

    Target conventions (the file includes [xc.h] and drives an 8-bit PIC):
    [int] is a 16-bit two's complement integer and [unsigned char] is a
    byte.  The width of [double] is a compiler setting: XC8 offers a 24-bit
    format (16-bit significand) and IEEE 754 binary32, a hosted compiler
    binary64.  The interrupt routine is therefore given twice: [ISR_in],
    whose division is carried out in any binary format, and [ISR], its
    instance at binary64 on Rocq's primitive floats (lemma [ISR_binary64]),
    which is fast enough to compare the division with the exact quotient
    for every duration and frame count and carries the properties of the
    rendering. *)

From Stdlib Require Import ZArith Lia String Ascii QArith Qround Floats Uint63.
From stdpp Require Import base tactics option list.

Set Warnings "-inexact-float,-abstract-large-number".

Local Open Scope Z_scope.

(** ** Faults

    C leaves two things the program does undefined: an array access out of
    bounds and a conversion of a [double] that does not fit an [int].  Both
    are made explicit as faults. *)

Inductive fault :=
  | OutOfBounds (index : nat)
  | NotAnInt.

Inductive result (A : Type) :=
  | Ok (x : A)
  | Fault (f : fault).
Arguments Ok {A} x.
Arguments Fault {A} f.

#[global] Instance result_ret : MRet result := @Ok.
#[global] Instance result_bind : MBind result := fun A B k m =>
  match m with
  | Ok x => k x
  | Fault f => Fault f
  end.

(** ** Machine integers and array cells *)

Definition INT_MIN : Z := -32768.
Definition INT_MAX : Z := 32767.

(** The value an [int] holds after an arithmetic result [z]. *)
Definition int_wrap (z : Z) : Z := (z + 32768) mod 65536 - 32768.

(** [a[i] = v] and [a[i]] on an array of bytes. *)
Definition store (i : nat) (v : Z) (a : list Z) : result (list Z) :=
  if decide (i < length a)%nat then Ok (<[i:=v]> a) else Fault (OutOfBounds i).

Definition load (i : nat) (a : list Z) : result Z :=
  match a !! i with
  | Some v => Ok v
  | None => Fault (OutOfBounds i)
  end.

(** The C binary literals [0b........], most significant bit first. *)
Fixpoint bin_acc (s : string) (acc : Z) : Z :=
  match s with
  | EmptyString => acc
  | String c s' => bin_acc s' (2 * acc + (if Ascii.eqb c "1" then 1 else 0))
  end.

Definition bin (s : string) : Z := bin_acc s 0.

(** ** Program state

    The globals of [led_wand.c] and the hardware registers the program
    reads and writes.  [messageString] holds the characters in use, that
    is, the first [lengthOfMessageString] bytes of the C array. *)

Record state := mkState {
  messageString : list ascii;
  letterSegments : list Z;
  lengthOfMessage : Z;
  timePerSegment : Z;
  delayingVariable : Z;
  isSequenceRunning : Z;
  TMR1H : Z;
  TMR1L : Z;
  TMR1ON : bool;
  C1OUT : bool;
  C1IF : bool;
  PORTC : Z
}.

(** Size of [letterSegments] and of [messageString]. *)
Definition LETTER_SEGMENTS_SIZE : nat := 35.
Definition MESSAGE_STRING_SIZE : nat := 9.

(** The globals as C initialises them before [main] fills in the message. *)
Definition initial_state (msg : list ascii) : state :=
  {| messageString := msg;
     letterSegments := replicate LETTER_SEGMENTS_SIZE 0;
     lengthOfMessage := 0;
     timePerSegment := 100;
     delayingVariable := 0;
     isSequenceRunning := 0;
     TMR1H := 0; TMR1L := 0; TMR1ON := false;
     C1OUT := false; C1IF := false;
     PORTC := 0 |}.

Definition set_segments (a : list Z) (n : Z) (st : state) : state :=
  {| messageString := messageString st;
     letterSegments := a;
     lengthOfMessage := n;
     timePerSegment := timePerSegment st;
     delayingVariable := delayingVariable st;
     isSequenceRunning := isSequenceRunning st;
     TMR1H := TMR1H st; TMR1L := TMR1L st; TMR1ON := TMR1ON st;
     C1OUT := C1OUT st; C1IF := C1IF st;
     PORTC := PORTC st |}.

(** ** convertMessageStringToSegments *)

(** The three assignments and the [+ 3] of a letter's [case]. *)
Definition put3 (r0 r1 r2 : Z) (a : list Z) (idx : nat) : result (list Z * nat) :=
  a ← store idx r0 a;
  a ← store (idx + 1) r1 a;
  a ← store (idx + 2) r2 a;
  Ok (a, (idx + 3)%nat).

(** The [switch (messageString[i])]: no [default], so any other character
    falls through with nothing written. *)
Definition switch_case (c : ascii) (a : list Z) (idx : nat) : result (list Z * nat) :=
  match c with
  | " " =>
      a ← store idx (bin "00000000") a;
      a ← store idx (bin "00000000") a;
      Ok (a, (idx + 2)%nat)
  | "A" => put3 (bin "11111111") (bin "00001001") (bin "11111111") a idx
  | "B" => put3 (bin "11111111") (bin "10010000") (bin "11110000") a idx
  | "C" => put3 (bin "11111111") (bin "10000001") (bin "10000001") a idx
  | "D" => put3 (bin "11110000") (bin "10010000") (bin "11111111") a idx
  | "E" => put3 (bin "11111111") (bin "10010001") (bin "10010001") a idx
  | "F" => put3 (bin "11111111") (bin "00001001") (bin "00001001") a idx
  | "G" => put3 (bin "11111111") (bin "10010001") (bin "11110001") a idx
  | "H" => put3 (bin "11111111") (bin "00001000") (bin "11111111") a idx
  | "I" => put3 (bin "10000001") (bin "11111111") (bin "10000001") a idx
  | "J" => put3 (bin "10000001") (bin "11111111") (bin "00000001") a idx
  | "K" => put3 (bin "11111111") (bin "00100100") (bin "01000010") a idx
  | "L" => put3 (bin "11111111") (bin "10000000") (bin "10000000") a idx
  | "M" => put3 (bin "11111111") (bin "00001111") (bin "11111111") a idx
  | "N" => put3 (bin "11111111") (bin "00000001") (bin "11111111") a idx
  | "O" => put3 (bin "11111111") (bin "10000001") (bin "11111111") a idx
  | "P" => put3 (bin "11111111") (bin "00001001") (bin "00001111") a idx
  | "Q" => put3 (bin "00111111") (bin "01100001") (bin "10111111") a idx
  | "R" => put3 (bin "11110000") (bin "00010000") (bin "00010000") a idx
  | "S" => put3 (bin "10011111") (bin "10010001") (bin "11110001") a idx
  | "T" => put3 (bin "00001000") (bin "11111111") (bin "00001000") a idx
  | "U" => put3 (bin "11111111") (bin "10000000") (bin "11111111") a idx
  | "V" => put3 (bin "01100000") (bin "10000000") (bin "01100000") a idx
  | "W" => put3 (bin "11111111") (bin "11110000") (bin "11111111") a idx
  | "X" => put3 (bin "11000011") (bin "00111100") (bin "11000011") a idx
  | "Y" => put3 (bin "00001111") (bin "11111000") (bin "00001111") a idx
  | "Z" => put3 (bin "11100001") (bin "10011001") (bin "10000111") a idx
  | _ => Ok (a, idx)
  end%char.

(** "After every character, insert a small space": the same slot is
    assigned twice, then the index moves on by two. *)
Definition spacer (a : list Z) (idx : nat) : result (list Z * nat) :=
  a ← store idx (bin "00000000") a;
  a ← store idx (bin "00000000") a;
  Ok (a, (idx + 2)%nat).

(** One iteration of the [for] loop over the message. *)
Definition encode_char (c : ascii) (a : list Z) (idx : nat) : result (list Z * nat) :=
  '(a, idx) ← switch_case c a idx;
  spacer a idx.

Fixpoint encode_loop (msg : list ascii) (a : list Z) (idx : nat) : result (list Z * nat) :=
  match msg with
  | [] => Ok (a, idx)
  | c :: rest =>
      '(a, idx) ← encode_char c a idx;
      encode_loop rest a idx
  end.

Definition convertMessageStringToSegments (st : state) : result state :=
  '(a, idx) ← encode_loop (messageString st) (letterSegments st) 0%nat;
  Ok (set_segments a (Z.of_nat idx) st).

(** The message [main] installs. *)
Definition main_message : list ascii := list_ascii_of_string "SAHOTA".

(** ** Assignments to the globals and registers *)

Definition set_timePerSegment (v : Z) (st : state) : state :=
  mkState (messageString st) (letterSegments st) (lengthOfMessage st)
    v (delayingVariable st) (isSequenceRunning st)
    (TMR1H st) (TMR1L st) (TMR1ON st) (C1OUT st) (C1IF st) (PORTC st).

Definition set_delayingVariable (v : Z) (st : state) : state :=
  mkState (messageString st) (letterSegments st) (lengthOfMessage st)
    (timePerSegment st) v (isSequenceRunning st)
    (TMR1H st) (TMR1L st) (TMR1ON st) (C1OUT st) (C1IF st) (PORTC st).

Definition set_isSequenceRunning (v : Z) (st : state) : state :=
  mkState (messageString st) (letterSegments st) (lengthOfMessage st)
    (timePerSegment st) (delayingVariable st) v
    (TMR1H st) (TMR1L st) (TMR1ON st) (C1OUT st) (C1IF st) (PORTC st).

Definition set_TMR1H (v : Z) (st : state) : state :=
  mkState (messageString st) (letterSegments st) (lengthOfMessage st)
    (timePerSegment st) (delayingVariable st) (isSequenceRunning st)
    v (TMR1L st) (TMR1ON st) (C1OUT st) (C1IF st) (PORTC st).

Definition set_TMR1L (v : Z) (st : state) : state :=
  mkState (messageString st) (letterSegments st) (lengthOfMessage st)
    (timePerSegment st) (delayingVariable st) (isSequenceRunning st)
    (TMR1H st) v (TMR1ON st) (C1OUT st) (C1IF st) (PORTC st).

Definition set_TMR1ON (b : bool) (st : state) : state :=
  mkState (messageString st) (letterSegments st) (lengthOfMessage st)
    (timePerSegment st) (delayingVariable st) (isSequenceRunning st)
    (TMR1H st) (TMR1L st) b (C1OUT st) (C1IF st) (PORTC st).

Definition set_C1OUT (b : bool) (st : state) : state :=
  mkState (messageString st) (letterSegments st) (lengthOfMessage st)
    (timePerSegment st) (delayingVariable st) (isSequenceRunning st)
    (TMR1H st) (TMR1L st) (TMR1ON st) b (C1IF st) (PORTC st).

Definition set_C1IF (b : bool) (st : state) : state :=
  mkState (messageString st) (letterSegments st) (lengthOfMessage st)
    (timePerSegment st) (delayingVariable st) (isSequenceRunning st)
    (TMR1H st) (TMR1L st) (TMR1ON st) (C1OUT st) b (PORTC st).

Definition set_PORTC (v : Z) (st : state) : state :=
  mkState (messageString st) (letterSegments st) (lengthOfMessage st)
    (timePerSegment st) (delayingVariable st) (isSequenceRunning st)
    (TMR1H st) (TMR1L st) (TMR1ON st) (C1OUT st) (C1IF st) v.

(** ** The [double] arithmetic of the frame period, at binary64 *)

(** [int] to [double]: exact. *)
Definition int_to_double (z : Z) : float :=
  if z <? 0 then PrimFloat.opp (of_uint63 (of_Z (- z))) else of_uint63 (of_Z z).

(** [double] to [int]: the fractional part is discarded; a value that is
    not finite or does not fit an [int] has no defined result.  A finite
    double is [(-1)^s * m * 2^e]. *)
Definition double_to_int (f : float) : result Z :=
  match Prim2SF f with
  | S754_zero _ => Ok 0
  | S754_finite s m e =>
      let a := Z.shiftl (Z.pos m) e in
      let v := if s then - a else a in
      if (INT_MIN <=? v) && (v <=? INT_MAX) then Ok v else Fault NotAnInt
  | _ => Fault NotAnInt
  end.

(** [duration / (2.4 * lengthOfMessage)], assigned to an [int]. *)
Definition frame_period (duration n : Z) : result Z :=
  double_to_int (int_to_double duration / (2.4 * int_to_double n))%float.

(** ** ISR *)

(** [int duration = TMR1L + (256 * TMR1H);] *)
Definition read_duration (st : state) : Z :=
  int_wrap (TMR1L st + 256 * TMR1H st).

(** "Reset TMR1 back to 0": stop the timer, clear both halves, restart. *)
Definition reset_TMR1 (st : state) : state :=
  set_TMR1ON true (set_TMR1L 0 (set_TMR1H 0 (set_TMR1ON false st))).

(** The body of [if (duration > 14000)] on rightward acceleration. *)
Definition end_sequence (st : state) : state :=
  reset_TMR1 (set_delayingVariable 1 (set_timePerSegment 0 st)).

(** The body of [if (duration > 1500)] on leftward acceleration, after the
    division gave [v]. *)
Definition start_sequence (v : Z) (st : state) : state :=
  reset_TMR1 (set_isSequenceRunning 1 (set_timePerSegment v st)).

Definition ISR (st : state) : result state :=
  let st := set_TMR1ON false st in
  let duration := read_duration st in
  let st := set_TMR1ON true st in
  st ← (if negb (C1OUT st) then
          if 14000 <? duration then Ok (end_sequence st) else Ok st
        else
          if 1500 <? duration then
            v ← frame_period duration (lengthOfMessage st);
            Ok (start_sequence v st)
          else Ok st);
  Ok (set_C1IF false st).

(** ** delay, runLEDSequence and the loop of main

    The comparator interrupt preempts the main program.  What the hardware
    presents when it fires is an [edge]: the comparator output and the
    timer count.  A [schedule] fixes, for each point of the program at
    which an interrupt can be served, whether one is; once the schedule is
    used up no interrupt arrives any more.

    [delay_loop] has one such point in each iteration, after the condition
    held and before the decrement.  It carries the properties that hold
    wherever the routine runs (the order of the frames, what is left
    untouched) and those of the loop left alone.  [delay_steps], further
    down, has a point before every step of the loop; what an interrupt does
    to the length of a delay is stated there. *)

Record edge := mkEdge {
  edge_C1OUT : bool;
  edge_TMR1H : Z;
  edge_TMR1L : Z
}.

Definition schedule := list (option edge).

Definition interrupt (e : edge) (st : state) : result state :=
  ISR (set_C1IF true (set_TMR1L (edge_TMR1L e) (set_TMR1H (edge_TMR1H e)
        (set_C1OUT (edge_C1OUT e) st)))).

Definition serve (o : option edge) (st : state) : result state :=
  match o with
  | Some e => interrupt e st
  | None => Ok st
  end.

(** [delayingVariable > 0] and [delayingVariable--]. *)
Definition delay_condition (st : state) : bool := 0 <? delayingVariable st.

Definition delay_decrement (st : state) : state :=
  set_delayingVariable (int_wrap (delayingVariable st - 1)) st.

(** [for (...; delayingVariable > 0; delayingVariable--) {}] left alone:
    [fuel] bounds the number of decrements. *)
Fixpoint countdown (fuel : nat) (ticks : Z) (st : state) : Z * state :=
  match fuel with
  | O => (ticks, st)
  | S fuel' =>
      if delay_condition st
      then countdown fuel' (ticks + 1) (delay_decrement st)
      else (ticks, st)
  end.

(** The same loop under a schedule; [ticks] counts the decrements. *)
Fixpoint delay_loop (w : schedule) (ticks : Z) (st : state) : result (Z * schedule * state) :=
  match w with
  | [] =>
      let '(ticks, st) := countdown (Z.to_nat (delayingVariable st)) ticks st in
      Ok (ticks, [], st)
  | o :: w' =>
      if delay_condition st
      then
        st ← serve o st;
        delay_loop w' (ticks + 1) (delay_decrement st)
      else Ok (ticks, w, st)
  end.

Definition delay (delayTime : Z) (w : schedule) (st : state) : result (Z * schedule * state) :=
  delay_loop w 0 (set_delayingVariable delayTime st).

(** [for (int i = lengthOfMessage - 1; i >= 0; i--)], with [i + 1] frames
    still to show.  [shown] records each pattern written to [PORTC] with
    the number of ticks its delay lasted. *)
Fixpoint show_frames (count : nat) (w : schedule) (shown : list (Z * Z)) (st : state)
  : result (schedule * list (Z * Z) * state) :=
  match count with
  | O => Ok (w, shown, st)
  | S i =>
      v ← load i (letterSegments st);
      let st := set_PORTC v st in
      '(ticks, w, st) ← delay (timePerSegment st) w st;
      show_frames i w (shown ++ [(v, ticks)]) st
  end.

Definition runLEDSequence (w : schedule) (st : state) : result (schedule * list (Z * Z) * state) :=
  '(w, shown, st) ← show_frames (Z.to_nat (lengthOfMessage st)) w [] st;
  Ok (w, shown, set_PORTC 0 st).

(** One turn of [while (1)] in [main]. *)
Definition main_loop_body (w : schedule) (st : state) : result (schedule * list (Z * Z) * state) :=
  if isSequenceRunning st =? 0 then Ok (w, [], st)
  else
    '(w, shown, st) ← runLEDSequence w st;
    Ok (w, shown, set_isSequenceRunning 0 st).

(** ** Checking the frame period on machine integers

    [frame_period] goes through the sign, mantissa and exponent of the
    quotient.  The functions below compute the same integer part with
    primitive integer operations only, which is fast enough to compare the
    division with the exact quotient for every duration an [int] can hold
    and every frame count of [1 .. MAX_FRAMES]. *)

(** Five frames per character at most, nine characters in
    [messageString]. *)
Definition MAX_FRAMES : Z := 45.

(** Integer part of a positive normal double below [2^53]: its 53-bit
    mantissa shifted right. *)
Definition fast_trunc (q : float) : option int :=
  if PrimFloat.is_nan q || PrimFloat.is_zero q || PrimFloat.is_infinity q
     || PrimFloat.get_sign q
  then None
  else
    let (r, se) := frshiftexp q in
    let m := normfr_mantissa r in
    if ((4503599627370496 <=? m) && (m <? 9007199254740992)
        && (2092 <=? se) && (se <=? 2154))%uint63
    then Some (m >> (2154 - se))%uint63
    else None.

(** Does dividing [t] by the double [d = 2.4 * n] give [5 t / (12 n)]? *)
Definition period_ok (d : float) (n12 t : int) : bool :=
  match fast_trunc (of_uint63 t / d)%float with
  | Some k => ((k =? (5 * t) / n12) && (k <=? 32767))%uint63
  | None => false
  end.

Fixpoint all_durations (fuel : nat) (d : float) (n12 t : int) : bool :=
  match fuel with
  | O => true
  | S fuel' => period_ok d n12 t && all_durations fuel' d n12 (t + 1)%uint63
  end.

Fixpoint all_counts (fuel : nat) (n : int) : bool :=
  match fuel with
  | O => true
  | S fuel' =>
      all_durations 31267 (2.4 * of_uint63 n)%float (12 * n)%uint63 1501%uint63
      && all_counts fuel' (n + 1)%uint63
  end.

(** ** The specification's reading of the encoder and of the frame period *)

Definition is_letter (c : ascii) : bool :=
  (65 <=? Z.of_nat (nat_of_ascii c)) && (Z.of_nat (nat_of_ascii c) <=? 90).

Definition is_space (c : ascii) : bool := Ascii.eqb c " ".

(** The frames the [switch] writes for [c], read off three blank slots. *)
Definition glyph (c : ascii) : list Z :=
  match switch_case c (replicate 3%nat 0) 0%nat with
  | Ok (a, k) => take k a
  | Fault _ => []
  end.

(** "After every character a 2-frame all-zero spacer is appended", and the
    frame sequence is the concatenation over the message, in order. *)
Definition spec_frames (c : ascii) : list Z := glyph c ++ [0; 0].

Fixpoint spec_encode (msg : list ascii) : list Z :=
  match msg with
  | [] => []
  | c :: rest => spec_frames c ++ spec_encode rest
  end.

(** What each frame of the sequence is there for. *)
Inductive role := Stroke | SpaceGlyph | Spacer.

Definition glyph_roles (c : ascii) : list role :=
  if is_letter c then [Stroke; Stroke; Stroke]
  else if is_space c then [SpaceGlyph; SpaceGlyph]
  else [].

Fixpoint spec_roles (msg : list ascii) : list role :=
  match msg with
  | [] => []
  | c :: rest => glyph_roles c ++ [Spacer; Spacer] ++ spec_roles rest
  end.

(** [t / (2.4 * n)] over the rationals, truncated: for the positive values
    it is applied to, truncation is the floor. *)
Definition exact_frame_period (t n : Z) : Z :=
  Qfloor (inject_Z t / (2.4 * inject_Z n)).

(** The state after an edge the detector ignores, validates as a start
    with frame period [v], and validates as an end: the fields the claims
    speak of, written out. *)
Definition ignored (st : state) : state :=
  {| messageString := messageString st;
     letterSegments := letterSegments st;
     lengthOfMessage := lengthOfMessage st;
     timePerSegment := timePerSegment st;
     delayingVariable := delayingVariable st;
     isSequenceRunning := isSequenceRunning st;
     TMR1H := TMR1H st; TMR1L := TMR1L st; TMR1ON := true;
     C1OUT := C1OUT st; C1IF := false;
     PORTC := PORTC st |}.

Definition started (v : Z) (st : state) : state :=
  {| messageString := messageString st;
     letterSegments := letterSegments st;
     lengthOfMessage := lengthOfMessage st;
     timePerSegment := v;
     delayingVariable := delayingVariable st;
     isSequenceRunning := 1;
     TMR1H := 0; TMR1L := 0; TMR1ON := true;
     C1OUT := C1OUT st; C1IF := false;
     PORTC := PORTC st |}.

Definition ended (st : state) : state :=
  {| messageString := messageString st;
     letterSegments := letterSegments st;
     lengthOfMessage := lengthOfMessage st;
     timePerSegment := 0;
     delayingVariable := 1;
     isSequenceRunning := isSequenceRunning st;
     TMR1H := 0; TMR1L := 0; TMR1ON := true;
     C1OUT := C1OUT st; C1IF := false;
     PORTC := PORTC st |}.

(** The frames [runLEDSequence] is asked to show. *)
Definition frames (st : state) : list Z :=
  take (Z.to_nat (lengthOfMessage st)) (letterSegments st).

(** ** Further definitions: slot counts, bytes, the idle loop *)

(** The number of slots one turn of the encoder's loop moves the frame
    index by: [+ 3] or [+ 2] in the [switch], then [+ 2] for the spacer. *)
Definition char_slots (c : ascii) : nat :=
  if is_letter c then 5%nat else if is_space c then 4%nat else 2%nat.

Fixpoint message_slots (msg : list ascii) : nat :=
  match msg with
  | [] => 0%nat
  | c :: rest => (char_slots c + message_slots rest)%nat
  end.

(** The values an [unsigned char] holds. *)
Definition is_byte (v : Z) : Prop := 0 <= v <= 255.

(** ** The [double] arithmetic in any binary format

    A format is the number of bits of its significand and the bound of its
    exponent; the operations are those of IEEE 754 with rounding to
    nearest, ties to even, as [SpecFloat] defines them. *)

Record double_format := mkFormat {
  significand_bits : Z;
  exponent_bound : Z
}.

Definition binary64 : double_format := mkFormat 53 1024.
Definition binary32 : double_format := mkFormat 24 128.

(** The 24-bit [double] of XC8: binary32 without the low byte of its
    mantissa. *)
Definition truncated24 : double_format := mkFormat 16 128.

(** [int] to [double]. *)
Definition sf_of_int (fmt : double_format) (z : Z) : spec_float :=
  binary_normalize (significand_bits fmt) (exponent_bound fmt) z 0 false.

(** [double] to [int], as [double_to_int]. *)
Definition sf_to_int (x : spec_float) : result Z :=
  match x with
  | S754_zero _ => Ok 0
  | S754_finite s m e =>
      let a := Z.shiftl (Z.pos m) e in
      let v := if s then - a else a in
      if (INT_MIN <=? v) && (v <=? INT_MAX) then Ok v else Fault NotAnInt
  | _ => Fault NotAnInt
  end.

(** The constant [2.4]: the value of the format nearest to [12 / 5]. *)
Definition two_point_four (fmt : double_format) : spec_float :=
  SFdiv (significand_bits fmt) (exponent_bound fmt) (sf_of_int fmt 12) (sf_of_int fmt 5).

(** [duration / (2.4 * lengthOfMessage)], assigned to an [int]. *)
Definition frame_period_in (fmt : double_format) (duration n : Z) : result Z :=
  sf_to_int
    (SFdiv (significand_bits fmt) (exponent_bound fmt)
       (sf_of_int fmt duration)
       (SFmul (significand_bits fmt) (exponent_bound fmt)
          (two_point_four fmt) (sf_of_int fmt n))).

(** The number of low bits rounding to the format takes off a mantissa
    [m] with exponent [e] (the shift of [shr_fexp]). *)
Definition shr_amount (prec emax m e : Z) : Z :=
  Z.max 0 (fexp prec emax (Zdigits2 m + e) - e).

(** A format wide enough to hold every [int] exactly, with room above the
    products, and whose [2.4] lies in [2, 4). *)
Definition supported_format (fmt : double_format) : bool :=
  (15 <=? significand_bits fmt) && (significand_bits fmt <=? exponent_bound fmt)
  && (18 <=? exponent_bound fmt)
  && match two_point_four fmt with
     | S754_finite false m e =>
         (e <=? 0) && (2 ^ (1 - e) <=? Z.pos m) && (Z.pos m <? 2 ^ (2 - e))
     | _ => false
     end.

(** [ISR] with its division in the format [fmt]. *)
Definition ISR_in (fmt : double_format) (st : state) : result state :=
  let st := set_TMR1ON false st in
  let duration := read_duration st in
  let st := set_TMR1ON true st in
  st ← (if negb (C1OUT st) then
          if 14000 <? duration then Ok (end_sequence st) else Ok st
        else
          if 1500 <? duration then
            v ← frame_period_in fmt duration (lengthOfMessage st);
            Ok (start_sequence v st)
          else Ok st);
  Ok (set_C1IF false st).

Definition interrupt_in (fmt : double_format) (e : edge) (st : state) : result state :=
  ISR_in fmt (set_C1IF true (set_TMR1L (edge_TMR1L e) (set_TMR1H (edge_TMR1H e)
                (set_C1OUT (edge_C1OUT e) st)))).

(** One turn of [while (1)] with the interrupt, if any, that arrives
    before [isSequenceRunning] is tested, and none during the turn. *)
Definition main_loop_turn_in (fmt : double_format) (o : option edge) (st : state)
  : result (schedule * list (Z * Z) * state) :=
  st ← match o with
       | Some e => interrupt_in fmt e st
       | None => Ok st
       end;
  main_loop_body [] st.

(** The count the 16-bit timer holds, [0 .. 65535] for two byte
    registers: the ticks since it was last cleared. *)
Definition timer_count (st : state) : Z := TMR1L st + 256 * TMR1H st.

(** ** The delay loop with an interrupt point before every step

    The steps of [delay] are the assignment [delayingVariable = delayTime],
    each evaluation of the condition and each decrement.  The schedule has
    one entry for each step in turn: the interrupt served just before
    it, if any.  The function ends with the test that fails; what is left
    of the schedule is handed back. *)

Inductive delay_point := AtTest | AtDecrement.

Fixpoint delay_steps (w : schedule) (p : delay_point) (ticks : Z) (st : state)
  : result (Z * schedule * state) :=
  match w with
  | [] =>
      match p with
      | AtTest =>
          let '(ticks, st) := countdown (Z.to_nat (delayingVariable st)) ticks st in
          Ok (ticks, [], st)
      | AtDecrement =>
          let st := delay_decrement st in
          let '(ticks, st) := countdown (Z.to_nat (delayingVariable st)) (ticks + 1) st in
          Ok (ticks, [], st)
      end
  | o :: w' =>
      st ← serve o st;
      match p with
      | AtTest =>
          if delay_condition st
          then delay_steps w' AtDecrement ticks st
          else Ok (ticks, w', st)
      | AtDecrement => delay_steps w' AtTest (ticks + 1) (delay_decrement st)
      end
  end.

Definition delay_preempted (delayTime : Z) (w : schedule) (st : state)
  : result (Z * schedule * state) :=
  match w with
  | [] => delay_steps [] AtTest 0 (set_delayingVariable delayTime st)
  | o :: w' =>
      st ← serve o st;
      delay_steps w' AtTest 0 (set_delayingVariable delayTime st)
  end.

(** The number of interrupts a schedule holds. *)
Fixpoint edges_in (w : schedule) : Z :=
  match w with
  | [] => 0
  | Some _ :: w' => 1 + edges_in w'
  | None :: w' => edges_in w'
  end.

(** The state the routine finds at an edge: comparator output [c], the
    timer at [count], [n] frames in blank storage. *)
Definition at_edge (c : bool) (count n : Z) : state :=
  set_C1OUT c (set_TMR1H (count / 256) (set_TMR1L (count mod 256)
    (set_segments (replicate LETTER_SEGMENTS_SIZE 0) n (initial_state [])))).

(** A predicate on machine integers tried on [fuel] consecutive values. *)
Fixpoint all_ints (fuel : nat) (p : int -> bool) (t : int) : bool :=
  match fuel with
  | O => true
  | S fuel' => p t && all_ints fuel' p (t + 1)%uint63
  end.

(** Is [t / (2.4 * 0)] an infinity? *)
Definition divides_by_zero (t : int) : bool :=
  let q := (of_uint63 t / (2.4 * of_uint63 0))%float in
  negb (PrimFloat.is_nan q) && negb (PrimFloat.is_zero q) && PrimFloat.is_infinity q.

(** * Properties *)

(** ** Array cells and the fault monad *)

Lemma store_ok (i : nat) (v : Z) (a : list Z) :
  (i < length a)%nat -> store i v a = Ok (<[i:=v]> a).
Proof. intros H. unfold store. by rewrite decide_True. Qed.

Lemma store_inv (i : nat) (v : Z) (a a' : list Z) :
  store i v a = Ok a' -> (i < length a)%nat /\ a' = <[i:=v]> a.
Proof. unfold store. case_decide; [intros [= <-]; done | discriminate]. Qed.

Lemma store_same (i : nat) (v : Z) (a : list Z) :
  a !! i = Some v -> store i v a = Ok a.
Proof.
  intros H. rewrite store_ok by (by eapply lookup_lt_Some).
  by rewrite list_insert_id.
Qed.

Lemma store_app_r (pre l : list Z) (j : nat) (v : Z) :
  (j < length l)%nat ->
  store (length pre + j) v (pre ++ l) = Ok (pre ++ <[j:=v]> l).
Proof.
  intros H. rewrite store_ok by (rewrite length_app; lia).
  by rewrite insert_app_r.
Qed.

Lemma store_app_0 (pre l : list Z) (v : Z) :
  (0 < length l)%nat -> store (length pre) v (pre ++ l) = Ok (pre ++ <[0%nat:=v]> l).
Proof.
  intros H. rewrite <- (store_app_r pre l 0 v H). by rewrite Nat.add_0_r.
Qed.

Lemma bind_Ok_inv {A B : Type} (m : result A) (k : A -> result B) (y : B) :
  m ≫= k = Ok y -> exists x, m = Ok x /\ k x = Ok y.
Proof. destruct m as [x | f]; [by exists x | discriminate]. Qed.

(** ** The glyph table *)

Example glyph_A : glyph "A" = [255; 9; 255].
Proof. reflexivity. Qed.

Example glyph_space : glyph " " = [0; 0].
Proof. reflexivity. Qed.

Example glyph_lowercase_a : glyph "a" = [].
Proof. reflexivity. Qed.

(** Every character is of one of three kinds, and the [switch] does the
    matching one of three things. *)
Lemma switch_case_shape (c : ascii) :
  (c = " "%char /\ glyph c = [0; 0] /\
     forall a idx, switch_case c a idx =
       (a ← store idx 0 a; a ← store idx 0 a; Ok (a, (idx + 2)%nat)))
  \/ (is_letter c = true /\ exists r0 r1 r2,
        glyph c = [r0; r1; r2] /\
        (0 < r0 <= 255 /\ 0 < r1 <= 255 /\ 0 < r2 <= 255) /\
        forall a idx, switch_case c a idx = put3 r0 r1 r2 a idx)
  \/ (is_space c = false /\ is_letter c = false /\ glyph c = [] /\
        forall a idx, switch_case c a idx = Ok (a, idx)).
Proof.
  destruct c as [[] [] [] [] [] [] [] []];
    first
      [ left; split; [reflexivity |]; split; [reflexivity |]; intros; reflexivity
      | right; left; split; [reflexivity |];
        eexists _, _, _; split; [reflexivity |]; split; [cbv; intuition congruence |];
        intros; reflexivity
      | right; right; split; [reflexivity |]; split; [reflexivity |];
        split; [reflexivity |]; intros; reflexivity ].
Qed.

Lemma spec_frames_length (c : ascii) : (2 <= length (spec_frames c) <= 5)%nat.
Proof.
  unfold spec_frames. rewrite length_app.
  destruct (switch_case_shape c)
    as [(_ & -> & _) | [(_ & r0 & r1 & r2 & -> & _) | (_ & _ & -> & _)]];
    simpl; lia.
Qed.

Lemma spec_encode_app (l1 l2 : list ascii) :
  spec_encode (l1 ++ l2) = spec_encode l1 ++ spec_encode l2.
Proof.
  induction l1 as [| c l1 IH]; [done |].
  simpl. by rewrite IH, app_assoc.
Qed.

Lemma spec_encode_length_bound (msg : list ascii) :
  (2 * length msg <= length (spec_encode msg) <= 5 * length msg)%nat.
Proof.
  induction msg as [| c msg IH]; simpl; [lia |].
  rewrite length_app. pose proof (spec_frames_length c). lia.
Qed.

(** ** Encoding into blank storage *)

(** On storage whose slots from [idx] on are still zero, one character
    leaves exactly its frames behind, provided they fit. *)
Lemma encode_char_blank (c : ascii) (pre : list Z) (k : nat) :
  (length (spec_frames c) <= k)%nat ->
  encode_char c (pre ++ replicate k 0) (length pre) =
    Ok (pre ++ spec_frames c ++ replicate (k - length (spec_frames c)) 0,
        (length pre + length (spec_frames c))%nat).
Proof.
  unfold encode_char, spec_frames, spacer. change (bin "00000000") with 0.
  destruct (switch_case_shape c)
    as [(_ & -> & Hs) | [(_ & r0 & r1 & r2 & -> & _ & Hs) | (_ & _ & -> & Hs)]];
    rewrite Hs; clear Hs; simpl length; intros Hk.
  - do 4 (destruct k as [| k]; [lia |]). simpl replicate.
    rewrite store_app_0 by (simpl; lia). simpl.
    rewrite store_app_0 by (simpl; lia). simpl.
    rewrite store_app_r by (simpl; lia). simpl.
    rewrite store_app_r by (simpl; lia). simpl.
    rewrite Nat.sub_0_r. f_equal; f_equal; lia.
  - do 5 (destruct k as [| k]; [lia |]). simpl replicate. unfold put3.
    rewrite store_app_0 by (simpl; lia). simpl.
    rewrite store_app_r by (simpl; lia). simpl.
    rewrite store_app_r by (simpl; lia). simpl.
    rewrite store_app_r by (simpl; lia). simpl.
    rewrite store_app_r by (simpl; lia). simpl.
    rewrite Nat.sub_0_r. f_equal; f_equal; lia.
  - do 2 (destruct k as [| k]; [lia |]). simpl replicate. simpl.
    rewrite store_app_0 by (simpl; lia). simpl.
    rewrite store_app_0 by (simpl; lia). simpl.
    rewrite Nat.sub_0_r. f_equal; f_equal; lia.
Qed.

Lemma encode_loop_blank (msg : list ascii) (pre : list Z) (k : nat) :
  (length (spec_encode msg) <= k)%nat ->
  encode_loop msg (pre ++ replicate k 0) (length pre) =
    Ok (pre ++ spec_encode msg ++ replicate (k - length (spec_encode msg)) 0,
        (length pre + length (spec_encode msg))%nat).
Proof.
  revert pre k. induction msg as [| c msg IH]; intros pre k Hk; simpl in *.
  - by rewrite Nat.sub_0_r, Nat.add_0_r.
  - rewrite length_app in Hk.
    rewrite encode_char_blank by lia. simpl.
    rewrite (app_assoc pre), <- (length_app pre).
    rewrite IH by lia.
    rewrite !length_app, <- !app_assoc.
    rewrite Nat.sub_add_distr, Nat.add_assoc. done.
Qed.

(** The encoder run by [main]: from the zero-initialised globals. *)
Lemma convert_initial (msg : list ascii) :
  (length (spec_encode msg) <= LETTER_SEGMENTS_SIZE)%nat ->
  exists st',
    convertMessageStringToSegments (initial_state msg) = Ok st' /\
    messageString st' = msg /\
    lengthOfMessage st' = Z.of_nat (length (spec_encode msg)) /\
    length (letterSegments st') = LETTER_SEGMENTS_SIZE /\
    frames st' = spec_encode msg.
Proof.
  intros Hfit. unfold convertMessageStringToSegments. simpl.
  pose proof (encode_loop_blank msg [] LETTER_SEGMENTS_SIZE Hfit) as H.
  simpl in H. rewrite H. simpl. eexists. split; [reflexivity |].
  unfold frames. simpl. rewrite Nat2Z.id.
  split; [done |]. split; [done |]. split.
  - rewrite length_app, length_replicate. lia.
  - by rewrite take_app_length.
Qed.

(** ** Encoding into arbitrary storage *)

Ltac invert_stores :=
  repeat match goal with
    | H : _ ≫= _ = Ok _ |- _ =>
        let x := fresh "a" in
        let Hx := fresh "Hst" in
        apply bind_Ok_inv in H as (x & Hx & H); simpl in H
    | H : store _ _ _ = Ok _ |- _ =>
        let Hlt := fresh "Hlt" in
        apply store_inv in H as [Hlt ->]; rewrite ?length_insert in Hlt
    | H : Ok _ = Ok _ |- _ => injection H as <- <-
    end.

Ltac norm_lengths :=
  repeat match goal with
    | H : context [length (<[_:=_]> _)] |- _ => rewrite length_insert in H
    end.

Ltac lookup_inserts :=
  norm_lengths;
  repeat (rewrite list_lookup_insert_ne by lia);
  try (rewrite list_lookup_insert_eq by (rewrite ?length_insert; lia)).

(** One character writes only from [idx] on, moves the index by at most
    five, and writes nothing new into storage that already holds what it
    wrote. *)
Lemma encode_char_inv (c : ascii) (a a' : list Z) (idx idx' : nat) :
  encode_char c a idx = Ok (a', idx') ->
  (idx + 2 <= idx' <= idx + 5)%nat /\
  length a' = length a /\
  (forall j, (j < idx)%nat -> a' !! j = a !! j) /\
  (forall b : list Z,
     length b = length a ->
     (forall j, (idx <= j < idx')%nat -> b !! j = a' !! j) ->
     encode_char c b idx = Ok (b, idx')).
Proof.
  unfold encode_char, spacer. change (bin "00000000") with 0.
  destruct (switch_case_shape c)
    as [(_ & _ & Hs) | [(_ & r0 & r1 & r2 & _ & _ & Hs) | (_ & _ & _ & Hs)]];
    rewrite Hs; unfold put3; intros H.
  - apply bind_Ok_inv in H as ([a1 i1] & H1 & H). invert_stores.
    split; [lia |]. split; [by rewrite !length_insert |].
    split; [intros j Hj; by lookup_inserts |].
    intros b Hlen Hb. rewrite Hs.
    assert (H0 : b !! idx = Some 0) by (rewrite Hb by lia; by lookup_inserts).
    assert (H2 : b !! (idx + 2)%nat = Some 0) by (rewrite Hb by lia; by lookup_inserts).
    rewrite (store_same _ _ _ H0). simpl. rewrite (store_same _ _ _ H0). simpl.
    rewrite (store_same _ _ _ H2). simpl. rewrite (store_same _ _ _ H2). simpl.
    f_equal; f_equal; lia.
  - apply bind_Ok_inv in H as ([a1 i1] & H1 & H). invert_stores.
    split; [lia |]. split; [by rewrite !length_insert |].
    split; [intros j Hj; by lookup_inserts |].
    intros b Hlen Hb. rewrite Hs. unfold put3.
    assert (H0 : b !! idx = Some r0) by (rewrite Hb by lia; by lookup_inserts).
    assert (H1 : b !! (idx + 1)%nat = Some r1) by (rewrite Hb by lia; by lookup_inserts).
    assert (H2 : b !! (idx + 2)%nat = Some r2) by (rewrite Hb by lia; by lookup_inserts).
    assert (H3 : b !! (idx + 3)%nat = Some 0) by (rewrite Hb by lia; by lookup_inserts).
    rewrite (store_same _ _ _ H0). simpl. rewrite (store_same _ _ _ H1). simpl.
    rewrite (store_same _ _ _ H2). simpl.
    rewrite (store_same _ _ _ H3). simpl. rewrite (store_same _ _ _ H3). simpl.
    f_equal; f_equal; lia.
  - simpl in H. invert_stores.
    split; [lia |]. split; [by rewrite !length_insert |].
    split; [intros j Hj; by lookup_inserts |].
    intros b Hlen Hb. rewrite Hs. simpl.
    assert (H0 : b !! idx = Some 0) by (rewrite Hb by lia; by lookup_inserts).
    rewrite (store_same _ _ _ H0). simpl. by rewrite (store_same _ _ _ H0).
Qed.

Lemma encode_loop_inv (msg : list ascii) (a a' : list Z) (idx n : nat) :
  encode_loop msg a idx = Ok (a', n) ->
  (idx <= n)%nat /\
  length a' = length a /\
  (forall j, (j < idx)%nat -> a' !! j = a !! j) /\
  (forall b : list Z,
     length b = length a ->
     (forall j, (idx <= j)%nat -> b !! j = a' !! j) ->
     encode_loop msg b idx = Ok (b, n)).
Proof.
  revert a idx. induction msg as [| c msg IH]; intros a idx H; simpl in H.
  - injection H as <- <-. by repeat split.
  - apply bind_Ok_inv in H as ([a1 i1] & Hc & H).
    apply encode_char_inv in Hc as (Hi & Hl & Hlow & Hre).
    apply IH in H as (Hi' & Hl' & Hlow' & Hre').
    split; [lia |]. split; [congruence |].
    split; [intros j Hj; rewrite Hlow' by lia; by apply Hlow |].
    intros b Hlen Hb. simpl.
    rewrite (Hre b Hlen) by (intros j Hj; rewrite Hb by lia; apply Hlow'; lia).
    simpl. apply Hre'; [congruence |]. intros j Hj. apply Hb. lia.
Qed.

(** [main]'s message "SAHOTA": six letters, thirty frames. *)
Example convert_main_message :
  convertMessageStringToSegments (initial_state main_message) =
    Ok (set_segments
          [159; 145; 241; 0; 0; 255; 9; 255; 0; 0; 255; 8; 255; 0; 0;
           255; 129; 255; 0; 0; 8; 255; 8; 0; 0; 255; 9; 255; 0; 0;
           0; 0; 0; 0; 0]
          30 (initial_state main_message)).
Proof. reflexivity. Qed.

(** The second slot of a spacer is skipped, not cleared: on storage that
    is not blank it keeps what it held. *)
Example spacer_skips_second_slot :
  encode_char "A" [7; 7; 7; 7; 7; 7] 0 = Ok ([255; 9; 255; 0; 7; 7], 5%nat).
Proof. reflexivity. Qed.

(** A run of the encoder that stays inside the array ends with a frame
    count of at most one more than the array has slots. *)
Lemma encode_char_count (c : ascii) (a a' : list Z) (idx idx' : nat) :
  encode_char c a idx = Ok (a', idx') -> (idx' <= length a + 1)%nat.
Proof.
  unfold encode_char, spacer.
  destruct (switch_case_shape c)
    as [(_ & _ & Hs) | [(_ & r0 & r1 & r2 & _ & _ & Hs) | (_ & _ & _ & Hs)]];
    rewrite Hs; unfold put3; intros H.
  - apply bind_Ok_inv in H as ([a1 i1] & H1 & H). invert_stores.
    norm_lengths. rewrite ?length_insert. lia.
  - apply bind_Ok_inv in H as ([a1 i1] & H1 & H). invert_stores.
    norm_lengths. rewrite ?length_insert. lia.
  - simpl in H. invert_stores. norm_lengths. rewrite ?length_insert. lia.
Qed.

Lemma encode_loop_count (msg : list ascii) (a a' : list Z) (idx n : nat) :
  encode_loop msg a idx = Ok (a', n) ->
  (idx <= length a + 1)%nat -> (n <= length a + 1)%nat.
Proof.
  revert a idx. induction msg as [| c msg IH]; intros a idx H Hidx; simpl in H.
  - by injection H as <- <-.
  - apply bind_Ok_inv in H as ([a1 i1] & Hc & H).
    pose proof (encode_char_count _ _ _ _ _ Hc) as Hb.
    apply encode_char_inv in Hc as (_ & Hl & _).
    apply IH in H; lia.
Qed.

Lemma convert_frame_count (msg : list ascii) (st' : state) :
  convertMessageStringToSegments (initial_state msg) = Ok st' ->
  0 <= lengthOfMessage st' <= MAX_FRAMES.
Proof.
  unfold convertMessageStringToSegments. intros H.
  apply bind_Ok_inv in H as ([a n] & Hrun & H). injection H as <-.
  apply encode_loop_count in Hrun; [| lia].
  simpl in *. unfold MAX_FRAMES. lia.
Qed.

Lemma glyph_roles_match (c : ascii) :
  Forall2 (fun v r => (v = 0 <-> r <> Stroke) /\ 0 <= v <= 255)
    (glyph c) (glyph_roles c).
Proof.
  unfold glyph_roles.
  destruct (switch_case_shape c)
    as [(-> & -> & _) | [(-> & r0 & r1 & r2 & -> & Hr & _) | (-> & -> & -> & _)]].
  - simpl. repeat constructor; (done || lia).
  - repeat constructor; (done || lia).
  - constructor.
Qed.

Lemma spec_roles_match (msg : list ascii) :
  Forall2 (fun v r => (v = 0 <-> r <> Stroke) /\ 0 <= v <= 255)
    (spec_encode msg) (spec_roles msg).
Proof.
  induction msg as [| c msg IH]; simpl; [constructor |].
  unfold spec_frames. rewrite <- app_assoc.
  apply Forall2_app; [apply glyph_roles_match |].
  simpl. repeat constructor; (done || lia || exact IH).
Qed.

(** ** The encoder claims *)

(** C4: from the zero-initialised storage, a letter ['A'..'Z'] of the
    message contributes exactly its 3 stroke frames followed by 2 zero
    frames, and a space 2 zero glyph frames followed by the 2 zero spacer
    frames; the frames of the characters before it come before and those
    of the characters after it come after. *)
Theorem supported_char_frames (pre post : list ascii) (c : ascii) :
  is_letter c = true \/ c = " "%char ->
  (length (spec_encode (pre ++ c :: post)) <= LETTER_SEGMENTS_SIZE)%nat ->
  exists st',
    convertMessageStringToSegments (initial_state (pre ++ c :: post)) = Ok st' /\
    frames st' = spec_encode pre ++ (glyph c ++ [0; 0]) ++ spec_encode post /\
    lengthOfMessage st' =
      Z.of_nat (length (spec_encode pre) + (length (glyph c) + 2)
                + length (spec_encode post)) /\
    (is_letter c = true -> exists r0 r1 r2, glyph c = [r0; r1; r2]) /\
    (c = " "%char -> glyph c ++ [0; 0] = [0; 0; 0; 0]).
Proof.
  intros Hc Hfit.
  destruct (convert_initial _ Hfit) as (st' & Hrun & _ & Hn & _ & Hfr).
  exists st'. split; [exact Hrun |].
  rewrite spec_encode_app in Hfr, Hn. simpl in Hfr, Hn. unfold spec_frames in Hfr, Hn.
  split; [by rewrite Hfr, <- !app_assoc |].
  split; [rewrite Hn, !length_app; simpl; f_equal; lia |].
  destruct (switch_case_shape c)
    as [(-> & Hg & _) | [(Hl & r0 & r1 & r2 & Hg & _) | (Hs & Hl & _)]].
  - split; [discriminate |]. intros _. by rewrite Hg.
  - split; [intros _; by exists r0, r1, r2 |]. intros ->. discriminate.
  - destruct Hc as [Hc | ->]; [congruence | discriminate].
Qed.

Lemma supported_char_frames_witness :
  exists st',
    convertMessageStringToSegments (initial_state ["H"; " "; "I"]%char) = Ok st' /\
    frames st' = [255; 8; 255; 0; 0] ++ ([0; 0] ++ [0; 0]) ++ [129; 255; 129; 0; 0].
Proof.
  destruct (supported_char_frames ["H"%char] ["I"%char] " "%char)
    as (st' & Hrun & Hfr & _); [by right | vm_compute; lia |].
  exists st'. split; [exact Hrun | exact Hfr].
Defined.

(** C5: from the zero-initialised storage, a character that is neither a
    space nor a letter ['A'..'Z'] contributes exactly the 2 zero frames of
    the spacer and no stroke frame. *)
Theorem unsupported_char_frames (pre post : list ascii) (c : ascii) :
  is_space c = false -> is_letter c = false ->
  (length (spec_encode (pre ++ c :: post)) <= LETTER_SEGMENTS_SIZE)%nat ->
  exists st',
    convertMessageStringToSegments (initial_state (pre ++ c :: post)) = Ok st' /\
    frames st' = spec_encode pre ++ [0; 0] ++ spec_encode post /\
    lengthOfMessage st' =
      Z.of_nat (length (spec_encode pre) + 2 + length (spec_encode post)).
Proof.
  intros Hs Hl Hfit.
  destruct (convert_initial _ Hfit) as (st' & Hrun & _ & Hn & _ & Hfr).
  exists st'. split; [exact Hrun |].
  rewrite spec_encode_app in Hfr, Hn. simpl in Hfr, Hn. unfold spec_frames in Hfr, Hn.
  destruct (switch_case_shape c)
    as [(-> & _) | [(Hl' & _) | (_ & _ & Hg & _)]]; [discriminate | congruence |].
  rewrite Hg in Hfr, Hn. simpl in Hfr, Hn.
  split; [exact Hfr |]. rewrite Hn, !length_app. simpl. f_equal. lia.
Qed.

Lemma unsupported_char_frames_witness :
  exists st',
    convertMessageStringToSegments (initial_state ["H"; "i"; "I"]%char) = Ok st' /\
    frames st' = [255; 8; 255; 0; 0] ++ [0; 0] ++ [129; 255; 129; 0; 0].
Proof.
  destruct (unsupported_char_frames ["H"%char] ["I"%char] "i"%char)
    as (st' & Hrun & Hfr & _); [done | done | vm_compute; lia |].
  exists st'. split; [exact Hrun | exact Hfr].
Defined.

(** C6 fails: an unsupported character is not skipped; the spacer of the
    loop body still runs, so the frame index moves on by two. *)
Lemma unsupported_char_counterexample :
  convertMessageStringToSegments (initial_state ["!"%char]) =
    Ok (set_segments (replicate 35%nat 0) 2 (initial_state ["!"%char])) /\
  convertMessageStringToSegments (initial_state ["!"%char]) <>
    Ok (set_segments (replicate 35%nat 0) 0 (initial_state ["!"%char])).
Proof. split; [reflexivity | discriminate]. Qed.

(** C6 as amended: for a character that is neither a space nor a letter
    the encoder writes no stroke frame; it zeroes the slot at the frame
    index, leaves every other slot as it was, and advances the index by
    two. *)
Theorem unsupported_char_step (c : ascii) (a : list Z) (idx : nat) :
  is_space c = false -> is_letter c = false ->
  (idx < length a)%nat ->
  encode_char c a idx = Ok (<[idx:=0]> a, (idx + 2)%nat).
Proof.
  intros Hs Hl Hidx. unfold encode_char, spacer. change (bin "00000000") with 0.
  destruct (switch_case_shape c)
    as [(-> & _) | [(Hl' & _) | (_ & _ & _ & Hsw)]]; [discriminate | congruence |].
  rewrite Hsw. simpl.
  rewrite store_ok by done. simpl.
  rewrite store_ok by (by rewrite length_insert). simpl.
  by rewrite list_insert_insert_eq.
Qed.

Lemma unsupported_char_step_witness :
  encode_char "!"%char [7; 7; 7] 1 = Ok ([7; 0; 7], 3%nat).
Proof.
  apply (unsupported_char_step "!"%char [7; 7; 7] 1); [done | done | simpl; lia].
Defined.

(** C10: each of the three stroke frames of every letter ['A'..'Z'] is a
    nonzero byte; so in the frame sequence of an encoded message the
    stroke frames are nonzero and every other frame, space glyph or
    spacer, is zero, and the two frames between the strokes of consecutive
    letters are blank. *)
Theorem zero_frames_are_the_blanks (msg : list ascii) :
  (length (spec_encode msg) <= LETTER_SEGMENTS_SIZE)%nat ->
  (forall c, is_letter c = true ->
     exists r0 r1 r2,
       glyph c = [r0; r1; r2] /\ 0 < r0 <= 255 /\ 0 < r1 <= 255 /\ 0 < r2 <= 255) /\
  exists st',
    convertMessageStringToSegments (initial_state msg) = Ok st' /\
    Forall2 (fun v r => (v = 0 <-> r <> Stroke) /\ 0 <= v <= 255)
      (frames st') (spec_roles msg) /\
    (forall pre c1 c2 post,
       msg = pre ++ c1 :: c2 :: post -> is_letter c1 = true -> is_letter c2 = true ->
       exists r0 r1 r2 s0 s1 s2,
         frames st' = spec_encode pre ++ [r0; r1; r2; 0; 0; s0; s1; s2; 0; 0]
                        ++ spec_encode post /\
         Forall (fun v => v <> 0) [r0; r1; r2; s0; s1; s2]).
Proof.
  intros Hfit. split.
  { intros c Hc.
    destruct (switch_case_shape c)
      as [(-> & _) | [(_ & r0 & r1 & r2 & Hg & Hr & _) | (_ & ? & _)]];
      [discriminate | | congruence].
    exists r0, r1, r2. by split. }
  destruct (convert_initial _ Hfit) as (st' & Hrun & _ & _ & _ & Hfr).
  exists st'. split; [exact Hrun |]. rewrite Hfr.
  split; [apply spec_roles_match |].
  intros pre c1 c2 post -> H1 H2.
  rewrite spec_encode_app. simpl. unfold spec_frames.
  destruct (switch_case_shape c1)
    as [(-> & _) | [(_ & r0 & r1 & r2 & -> & Hr & _) | (_ & ? & _)]];
    [discriminate | | congruence].
  destruct (switch_case_shape c2)
    as [(-> & _) | [(_ & s0 & s1 & s2 & -> & Hs & _) | (_ & ? & _)]];
    [discriminate | | congruence].
  exists r0, r1, r2, s0, s1, s2. split; [done |].
  repeat constructor; lia.
Qed.

Lemma zero_frames_are_the_blanks_witness :
  exists st',
    convertMessageStringToSegments (initial_state main_message) = Ok st' /\
    Forall2 (fun v r => (v = 0 <-> r <> Stroke) /\ 0 <= v <= 255)
      (frames st') (spec_roles main_message).
Proof.
  destruct (zero_frames_are_the_blanks main_message) as (_ & st' & Hrun & Hz & _);
    [vm_compute; lia |].
  exists st'. split; [exact Hrun | exact Hz].
Defined.

(** The storage is sized for seven characters. *)
Lemma seven_chars_fit (msg : list ascii) :
  (length msg <= 7)%nat ->
  exists st', convertMessageStringToSegments (initial_state msg) = Ok st'.
Proof.
  intros H. pose proof (spec_encode_length_bound msg).
  destruct (convert_initial msg) as (st' & Hrun & _); [unfold LETTER_SEGMENTS_SIZE; lia |].
  by exists st'.
Qed.

(** C8 fails on the code: a message of eight letters fits the nine bytes
    of [messageString], yet encoding it stores to [letterSegments[35]],
    one past the end of the 35-byte array. *)
Theorem eight_letters_overflow :
  (length (list_ascii_of_string "AAAAAAAA") <= MESSAGE_STRING_SIZE)%nat /\
  convertMessageStringToSegments (initial_state (list_ascii_of_string "AAAAAAAA"))
    = Fault (OutOfBounds LETTER_SEGMENTS_SIZE).
Proof. split; [vm_compute; lia | reflexivity]. Qed.

(** C9: running the encoder again on its own result changes neither the
    frame array nor the frame count (whatever the storage held before the
    first run). *)
Theorem convert_idempotent (st st1 : state) :
  convertMessageStringToSegments st = Ok st1 ->
  convertMessageStringToSegments st1 = Ok st1.
Proof.
  unfold convertMessageStringToSegments. intros H.
  apply bind_Ok_inv in H as ([a n] & Hrun & H). injection H as <-. simpl.
  apply encode_loop_inv in Hrun as (_ & Hlen & _ & Hre).
  rewrite (Hre a Hlen) by done. simpl. reflexivity.
Qed.

Lemma convert_idempotent_witness :
  convertMessageStringToSegments
    (set_segments
       [159; 145; 241; 0; 0; 255; 9; 255; 0; 0; 255; 8; 255; 0; 0; 255; 129; 255;
        0; 0; 8; 255; 8; 0; 0; 255; 9; 255; 0; 0; 0; 0; 0; 0; 0]
       30 (initial_state main_message))
  = Ok (set_segments
       [159; 145; 241; 0; 0; 255; 9; 255; 0; 0; 255; 8; 255; 0; 0; 255; 129; 255;
        0; 0; 8; 255; 8; 0; 0; 255; 9; 255; 0; 0; 0; 0; 0; 0; 0]
       30 (initial_state main_message)).
Proof.
  apply (convert_idempotent (initial_state main_message)). reflexivity.
Defined.

(** ** The frame period: the double division against the exact quotient *)

Lemma exact_frame_period_div (t n : Z) :
  0 < n -> exact_frame_period t n = 5 * t / (12 * n).
Proof.
  intros Hn. unfold exact_frame_period.
  destruct n as [| p | p]; try lia.
  unfold Qfloor, Qdiv, Qmult, Qinv, inject_Z. simpl Qnum. simpl Qden.
  match goal with
  | |- ?a `div` ?b = _ =>
      replace a with (2 * (5 * t)) by lia;
      replace b with (2 * (12 * Z.pos p)) by lia
  end.
  apply Z.div_mul_cancel_l; lia.
Qed.

Lemma digits2_pos_bounds (p : positive) :
  2 ^ (Z.pos (digits2_pos p) - 1) <= Z.pos p < 2 ^ Z.pos (digits2_pos p).
Proof.
  induction p as [p IH | p IH |]; simpl digits2_pos.
  - rewrite Pos2Z.inj_succ.
    replace (Z.succ (Z.pos (digits2_pos p)) - 1)
      with (Z.succ (Z.pos (digits2_pos p) - 1)) by lia.
    rewrite !Z.pow_succ_r by lia. lia.
  - rewrite Pos2Z.inj_succ.
    replace (Z.succ (Z.pos (digits2_pos p)) - 1)
      with (Z.succ (Z.pos (digits2_pos p) - 1)) by lia.
    rewrite !Z.pow_succ_r by lia. lia.
  - simpl. lia.
Qed.

Lemma digits2_pos_53 (p : positive) :
  2 ^ 52 <= Z.pos p < 2 ^ 53 -> Z.pos (digits2_pos p) = 53.
Proof.
  intros [Hlo Hhi]. pose proof (digits2_pos_bounds p) as [Hl Hh].
  destruct (Z.lt_trichotomy (Z.pos (digits2_pos p)) 53) as [Hlt | [Heq | Hgt]];
    [| exact Heq |].
  - assert (2 ^ Z.pos (digits2_pos p) <= 2 ^ 52) by (apply Z.pow_le_mono_r; lia). lia.
  - assert (2 ^ 53 <= 2 ^ (Z.pos (digits2_pos p) - 1)) by (apply Z.pow_le_mono_r; lia).
    lia.
Qed.

(** The integer part computed on the mantissa is the one [double_to_int]
    yields. *)
Lemma fast_trunc_sound (q : float) (k : int) :
  fast_trunc q = Some k -> to_Z k <= INT_MAX -> double_to_int q = Ok (to_Z k).
Proof.
  unfold fast_trunc.
  destruct (PrimFloat.is_nan q) eqn:Hnan; [discriminate |].
  destruct (PrimFloat.is_zero q) eqn:Hzero; [discriminate |].
  destruct (PrimFloat.is_infinity q) eqn:Hinf; [discriminate |].
  destruct (PrimFloat.get_sign q) eqn:Hsign; [discriminate |]. cbn [orb].
  destruct (frshiftexp q) as [r se] eqn:Hfr.
  destruct (_ && _)%bool eqn:Hc; [| discriminate].
  apply andb_prop in Hc as [Hc Hse2]. apply andb_prop in Hc as [Hc Hse1].
  apply andb_prop in Hc as [Hm1 Hm2].
  apply Uint63.leb_spec in Hm1, Hse1, Hse2. apply Uint63.ltb_spec in Hm2.
  change (to_Z 4503599627370496) with (2 ^ 52) in Hm1.
  change (to_Z 9007199254740992) with (2 ^ 53) in Hm2.
  change (to_Z 2092) with 2092 in Hse1. change (to_Z 2154) with 2154 in Hse2.
  intros [= <-] Hk.
  unfold double_to_int, Prim2SF. rewrite Hnan, Hzero, Hinf, Hsign.
  unfold Z.frexp. rewrite Hfr.
  unfold shr_fexp.
  destruct (to_Z (normfr_mantissa r)) as [| p | p] eqn:Hp; try lia.
  unfold Zdigits2. rewrite (digits2_pos_53 p) by lia.
  unfold fexp, SpecFloat.emin, FloatOps.prec, FloatOps.emax, FloatOps.shift.
  replace (Z.max (53 + (to_Z se - 2101 - 53) - 53) (3 - 1024 - 53)
           - (to_Z se - 2101 - 53)) with 0 by lia.
  cbn [shr shr_record_of_loc shr_m].
  rewrite Z.shiftl_div_pow2 by lia.
  rewrite Uint63.lsr_spec, Uint63.sub_spec in Hk |- *.
  change (to_Z 2154) with 2154 in *.
  assert (Hw : wB = 2 ^ 63) by reflexivity.
  rewrite (Z.mod_small (2154 - to_Z se)) in Hk |- * by lia.
  rewrite <- Hp.
  replace (- (to_Z se - 2101 - 53)) with (2154 - to_Z se) by lia.
  assert (0 <= to_Z (normfr_mantissa r) / 2 ^ (2154 - to_Z se))
    by (apply Z.div_pos; lia).
  unfold INT_MIN, INT_MAX in *.
  destruct (_ <=? _) eqn:E1; [| apply Z.leb_gt in E1; lia].
  destruct (_ / _ <=? _) eqn:E2; [| apply Z.leb_gt in E2; rewrite Hp in *; lia].
  reflexivity.
Qed.

Lemma to_Z_succ (t : int) : to_Z t + 1 < wB -> to_Z (t + 1)%uint63 = to_Z t + 1.
Proof.
  intros H. rewrite Uint63.add_spec. change (to_Z 1) with 1.
  pose proof (Uint63.to_Z_bounded t). apply Z.mod_small. lia.
Qed.

Lemma all_durations_sound (fuel : nat) (d : float) (n12 t : int) :
  all_durations fuel d n12 t = true ->
  to_Z t + Z.of_nat fuel < wB ->
  forall z, to_Z t <= z < to_Z t + Z.of_nat fuel -> period_ok d n12 (of_Z z) = true.
Proof.
  revert t. induction fuel as [| fuel IH]; intros t Hall Hb z Hz; [lia |].
  cbn [all_durations] in Hall. apply andb_prop in Hall as [H1 H2].
  destruct (Z.eq_dec z (to_Z t)) as [-> | Hne].
  - by rewrite Uint63.of_to_Z.
  - apply (IH (t + 1)%uint63 H2); rewrite to_Z_succ; lia.
Qed.

Lemma all_counts_sound (fuel : nat) (n : int) :
  all_counts fuel n = true ->
  to_Z n + Z.of_nat fuel < wB ->
  forall z t, to_Z n <= z < to_Z n + Z.of_nat fuel -> 1500 < t <= INT_MAX ->
    period_ok (2.4 * of_uint63 (of_Z z))%float (12 * of_Z z)%uint63 (of_Z t) = true.
Proof.
  revert n. induction fuel as [| fuel IH]; intros n Hall Hb z t Hz Ht; [lia |].
  cbn [all_counts] in Hall. apply andb_prop in Hall as [H1 H2].
  destruct (Z.eq_dec z (to_Z n)) as [-> | Hne].
  - rewrite Uint63.of_to_Z.
    apply (all_durations_sound _ _ _ _ H1).
    + vm_compute. reflexivity.
    + change (to_Z 1501) with 1501. unfold INT_MAX in Ht.
      replace (Z.of_nat 31267) with 31267 by (vm_compute; reflexivity). lia.
  - apply (IH (n + 1)%uint63 H2); try rewrite to_Z_succ; lia.
Qed.

Lemma period_ok_sound (t n : Z) :
  0 <= t <= INT_MAX -> 0 < n <= INT_MAX ->
  period_ok (2.4 * of_uint63 (of_Z n))%float (12 * of_Z n)%uint63 (of_Z t) = true ->
  frame_period t n = Ok (5 * t / (12 * n)).
Proof.
  unfold INT_MAX. intros Ht Hn. unfold period_ok.
  destruct (fast_trunc _) as [k |] eqn:Hk; [| discriminate].
  intros H. apply andb_prop in H as [H1 H2].
  apply Uint63.eqb_spec in H1. apply Uint63.leb_spec in H2.
  change (to_Z 32767) with 32767 in H2.
  apply fast_trunc_sound in Hk; [| exact H2].
  unfold frame_period, int_to_double.
  destruct (t <? 0) eqn:E1; [apply Z.ltb_lt in E1; lia |].
  destruct (n <? 0) eqn:E2; [apply Z.ltb_lt in E2; lia |].
  rewrite Hk. f_equal. rewrite H1.
  assert (Hw : wB = 2 ^ 63) by reflexivity.
  rewrite Uint63.div_spec, !Uint63.mul_spec, !Uint63.of_Z_spec.
  change (to_Z 5) with 5. change (to_Z 12) with 12.
  rewrite (Z.mod_small t), (Z.mod_small n) by lia.
  rewrite !Z.mod_small by lia. reflexivity.
Qed.

(** Every duration in [1501 .. 32767] against every frame count in
    [1 .. 45], by evaluation. *)
Lemma all_counts_checked : all_counts 45 1 = true.
Proof. vm_cast_no_check (eq_refl true). Qed.

(** The double division of [ISR], truncated, is the exact quotient
    truncated, and fits an [int]. *)
Lemma frame_period_exact (t n : Z) :
  1500 < t <= INT_MAX -> 0 < n <= MAX_FRAMES ->
  frame_period t n = Ok (exact_frame_period t n).
Proof.
  unfold MAX_FRAMES. intros Ht Hn. rewrite exact_frame_period_div by lia.
  apply period_ok_sound; unfold INT_MAX in *; try lia.
  apply (all_counts_sound 45 1 all_counts_checked).
  - vm_compute. reflexivity.
  - change (to_Z 1) with 1. replace (Z.of_nat 45) with 45 by reflexivity. lia.
  - unfold INT_MAX. lia.
Qed.

Lemma int_wrap_range (z : Z) : INT_MIN <= int_wrap z <= INT_MAX.
Proof.
  unfold int_wrap, INT_MIN, INT_MAX.
  pose proof (Z.mod_pos_bound (z + 32768) 65536). lia.
Qed.

Lemma int_wrap_small (z : Z) : INT_MIN <= z <= INT_MAX -> int_wrap z = z.
Proof.
  unfold int_wrap, INT_MIN, INT_MAX. intros H.
  rewrite Z.mod_small by lia. lia.
Qed.

(** ** The division in any format, and its instance at binary64 *)

Lemma double_to_int_sf (f : float) : double_to_int f = sf_to_int (Prim2SF f).
Proof. reflexivity. Qed.

Lemma binary_round_opp (prec emax : Z) (m : positive) (e : Z) :
  SFopp (binary_round prec emax false m e) = binary_round prec emax true m e.
Proof.
  unfold binary_round. destruct (shl_align _ _ _) as [mz ez].
  unfold binary_round_aux. destruct (shr_fexp _ _ _ _ _) as [mrs e'].
  destruct (shr_fexp _ _ _ _ _) as [mrs' e''].
  destruct (shr_m mrs'); [reflexivity | | reflexivity].
  destruct (e'' <=? _); reflexivity.
Qed.

Lemma int_to_double_sf (z : Z) :
  - wB < z < wB -> Prim2SF (int_to_double z) = sf_of_int binary64 z.
Proof.
  intros Hz. unfold int_to_double, sf_of_int.
  simpl significand_bits. simpl exponent_bound.
  destruct (z <? 0) eqn:E.
  - apply Z.ltb_lt in E. rewrite FloatAxioms.opp_spec, of_uint63_spec, of_Z_spec.
    rewrite Z.mod_small by lia.
    destruct z as [| p | p]; try lia. simpl Z.opp. cbn [binary_normalize].
    apply binary_round_opp.
  - apply Z.ltb_ge in E. rewrite of_uint63_spec, of_Z_spec.
    rewrite Z.mod_small by lia. reflexivity.
Qed.

Lemma two_point_four_binary64 : Prim2SF 2.4 = two_point_four binary64.
Proof. vm_compute. reflexivity. Qed.

(** On the values an [int] holds, the division on primitive floats is the
    division of the format binary64. *)
Lemma frame_period_binary64 (t n : Z) :
  INT_MIN <= t <= INT_MAX -> INT_MIN <= n <= INT_MAX ->
  frame_period t n = frame_period_in binary64 t n.
Proof.
  unfold INT_MIN, INT_MAX. intros Ht Hn.
  assert (Hw : wB = 9223372036854775808) by reflexivity.
  unfold frame_period, frame_period_in.
  rewrite double_to_int_sf, FloatAxioms.div_spec, FloatAxioms.mul_spec.
  rewrite !int_to_double_sf by lia.
  rewrite two_point_four_binary64. reflexivity.
Qed.

Lemma ISR_binary64 (st : state) :
  INT_MIN <= lengthOfMessage st <= INT_MAX -> ISR st = ISR_in binary64 st.
Proof.
  intros Hn. unfold ISR, ISR_in.
  rewrite frame_period_binary64; [reflexivity | apply int_wrap_range | exact Hn].
Qed.

(** At binary64, for every duration an [int] holds and every frame count a
    message can have, the division in the format is exact as well. *)
Lemma frame_period_in_binary64_exact (t n : Z) :
  1500 < t <= INT_MAX -> 0 < n <= MAX_FRAMES ->
  frame_period_in binary64 t n = Ok (exact_frame_period t n).
Proof.
  intros Ht Hn. rewrite <- frame_period_binary64.
  - by apply frame_period_exact.
  - unfold INT_MIN, INT_MAX in *. lia.
  - unfold INT_MIN, INT_MAX, MAX_FRAMES in *. lia.
Qed.

(** ** How large a rounded value can be

    [binary_round_aux] shifts the mantissa right until it has the bits of
    the format, moves it up by at most one for the rounding, and shifts
    once more if that carried.  Read as arithmetic on [Z], this bounds the
    value it returns by the power of two above its argument, and shows that
    the division of [ISR] never leaves the range of [int]: the divisor
    [2.4 * n] is at least 2. *)

Lemma shr_1_m (mrs : shr_record) :
  0 <= shr_m mrs -> shr_m (shr_1 mrs) = shr_m mrs / 2.
Proof.
  destruct mrs as [m r s]. cbn [shr_m]. intros Hm.
  destruct m as [| [p | p |] | p]; cbn [shr_1 shr_m]; try lia; try reflexivity.
  - apply (Z.div_unique _ 2 _ 1); lia.
  - apply (Z.div_unique _ 2 _ 0); lia.
Qed.

Lemma iter_shr_m (p : positive) (mrs : shr_record) :
  0 <= shr_m mrs -> shr_m (SpecFloat.iter_pos shr_1 p mrs) = shr_m mrs / 2 ^ Z.pos p.
Proof.
  revert mrs. induction p as [p IH | p IH |]; intros mrs Hm; cbn [SpecFloat.iter_pos].
  - assert (H1 : 0 <= shr_m (shr_1 mrs)) by (rewrite shr_1_m by done; apply Z.div_pos; lia).
    assert (H2 : 0 <= shr_m (SpecFloat.iter_pos shr_1 p (shr_1 mrs)))
      by (rewrite IH by done; apply Z.div_pos; lia).
    rewrite IH, IH, shr_1_m by done.
    rewrite !Z.div_div by lia. f_equal.
    replace (Z.pos p~1) with (1 + Z.pos p + Z.pos p) by lia.
    rewrite !Z.pow_add_r by lia. change (2 ^ 1) with 2. ring.
  - assert (H2 : 0 <= shr_m (SpecFloat.iter_pos shr_1 p mrs))
      by (rewrite IH by done; apply Z.div_pos; lia).
    rewrite IH, IH by done. rewrite Z.div_div by lia. f_equal.
    replace (Z.pos p~0) with (Z.pos p + Z.pos p) by lia.
    rewrite Z.pow_add_r by lia. ring.
  - rewrite shr_1_m by done. reflexivity.
Qed.

Lemma shr_m_of_loc (m : Z) (l : location) : shr_m (shr_record_of_loc m l) = m.
Proof. destruct l as [| []]; reflexivity. Qed.

Lemma loc_of_shr_record_of_loc (m : Z) (l : location) :
  loc_of_shr_record (shr_record_of_loc m l) = l.
Proof. destruct l as [| []]; reflexivity. Qed.

Lemma round_nearest_even_bounds (m : Z) (l : location) :
  m <= round_nearest_even m l <= m + 1.
Proof. destruct l as [| []]; simpl; try lia. destruct (Z.even m); lia. Qed.

Section Rounding.
Variables prec emax : Z.

Lemma shr_amount_nonneg (m e : Z) : 0 <= shr_amount prec emax m e.
Proof. unfold shr_amount. lia. Qed.

Lemma pow2_shr_amount_pos (m e : Z) : 0 < 2 ^ shr_amount prec emax m e.
Proof. apply Z.pow_pos_nonneg; [lia | apply shr_amount_nonneg]. Qed.

Lemma shr_fexp_spec (m e : Z) (l : location) :
  0 <= m ->
  shr_m (shr_fexp prec emax m e l).1 = m / 2 ^ shr_amount prec emax m e /\
  (shr_fexp prec emax m e l).2 = e + shr_amount prec emax m e /\
  (shr_amount prec emax m e = 0 -> loc_of_shr_record (shr_fexp prec emax m e l).1 = l).
Proof.
  intros Hm. unfold shr_fexp, shr_amount, shr.
  destruct (fexp prec emax (Zdigits2 m + e) - e) as [| p | p] eqn:E; simpl.
  - rewrite shr_m_of_loc, Z.div_1_r, Z.add_0_r, loc_of_shr_record_of_loc. done.
  - rewrite iter_shr_m by (rewrite shr_m_of_loc; done). rewrite shr_m_of_loc.
    replace (Z.max 0 (Z.pos p)) with (Z.pos p) by lia.
    repeat split; lia.
  - rewrite shr_m_of_loc, Z.div_1_r, Z.add_0_r, loc_of_shr_record_of_loc. done.
Qed.

(** [binary_round_aux] in arithmetic: a shift, a step of at most one, a
    second shift. *)
Lemma binary_round_aux_spec (sx : bool) (m e : Z) (l : location) :
  0 <= m ->
  exists m2,
    m / 2 ^ shr_amount prec emax m e <= m2 <= m / 2 ^ shr_amount prec emax m e + 1 /\
    (shr_amount prec emax m e = 0 -> l = loc_Exact -> m2 = m) /\
    binary_round_aux prec emax sx m e l =
      match m2 / 2 ^ shr_amount prec emax m2 (e + shr_amount prec emax m e) with
      | 0 => S754_zero sx
      | Z.pos p =>
          if e + shr_amount prec emax m e
             + shr_amount prec emax m2 (e + shr_amount prec emax m e) <=? emax - prec
          then S754_finite sx p
                 (e + shr_amount prec emax m e
                  + shr_amount prec emax m2 (e + shr_amount prec emax m e))
          else S754_infinity sx
      | Z.neg _ => S754_nan
      end.
Proof.
  intros Hm. unfold binary_round_aux.
  destruct (shr_fexp_spec m e l Hm) as (H1 & H2 & H3).
  destruct (shr_fexp prec emax m e l) as [mrs1 e1]. simpl in H1, H2, H3. subst e1.
  set (m2 := round_nearest_even (shr_m mrs1) (loc_of_shr_record mrs1)).
  assert (Hm1 : 0 <= shr_m mrs1)
    by (rewrite H1; apply Z.div_pos; [lia | apply pow2_shr_amount_pos]).
  assert (Hb : shr_m mrs1 <= m2 <= shr_m mrs1 + 1) by apply round_nearest_even_bounds.
  assert (Hm2 : 0 <= m2) by lia.
  destruct (shr_fexp_spec m2 (e + shr_amount prec emax m e) loc_Exact Hm2) as (H4 & H5 & _).
  destruct (shr_fexp prec emax m2 (e + shr_amount prec emax m e) loc_Exact) as [mrs2 e2].
  simpl in H4, H5. subst e2. rewrite H4.
  exists m2. split; [by rewrite <- H1 |]. split; [| reflexivity].
  intros Hd ->. unfold m2. rewrite (H3 Hd). simpl. rewrite H1, Hd. apply Z.div_1_r.
Qed.

Lemma Zdigits2_bounds (m : Z) :
  0 < m -> 2 ^ (Zdigits2 m - 1) <= m < 2 ^ Zdigits2 m.
Proof. destruct m as [| p | p]; try lia. intros _. apply digits2_pos_bounds. Qed.

Lemma Zdigits2_nonneg (m : Z) : 0 <= Zdigits2 m.
Proof. destruct m; simpl; lia. Qed.

Lemma Zdigits2_le (m k : Z) : 0 <= m -> 0 <= k -> m < 2 ^ k -> Zdigits2 m <= k.
Proof.
  intros Hm Hk Hlt. destruct (Z.eq_dec m 0) as [-> | Hne]; [simpl; lia |].
  destruct (Zdigits2_bounds m) as [Hlo _]; [lia |].
  destruct (Z.le_gt_cases (Zdigits2 m) k) as [| Hgt]; [done |].
  assert (2 ^ k <= 2 ^ (Zdigits2 m - 1)) by (apply Z.pow_le_mono_r; lia). lia.
Qed.

Lemma Zdigits2_gt (m j : Z) : 0 < m -> 2 ^ j <= m -> j < Zdigits2 m.
Proof.
  intros Hm Hle. destruct (Zdigits2_bounds m Hm) as [Hlo Hhi].
  pose proof (Zdigits2_nonneg m).
  destruct (Z.le_gt_cases (Zdigits2 m) j) as [Hge |]; [| done].
  assert (2 ^ Zdigits2 m <= 2 ^ j) by (apply Z.pow_le_mono_r; lia). lia.
Qed.

(** Where the shift stops. *)
Lemma shr_amount_upper (m e k : Z) :
  Zdigits2 m + e <= k -> SpecFloat.emin prec emax <= k - prec ->
  e + shr_amount prec emax m e <= Z.max e (k - prec).
Proof. unfold shr_amount, fexp, SpecFloat.emin in *. lia. Qed.

Lemma shr_amount_lower (m e : Z) :
  1 <= prec -> 0 < m -> SpecFloat.emin prec emax <= Zdigits2 m + e - prec ->
  shr_amount prec emax m e <= Zdigits2 m - 1.
Proof.
  intros Hprec Hm He. pose proof (Zdigits2_gt m 0 Hm ltac:(simpl; lia)).
  unfold shr_amount, fexp, SpecFloat.emin in *. lia.
Qed.

(** What the shift leaves of a bound on the value [m * 2^e]. *)
Lemma shift_below (m e n k : Z) :
  0 <= n -> e + n < k -> m < 2 ^ (k - e) -> m / 2 ^ n < 2 ^ (k - (e + n)).
Proof.
  intros Hn Hk Hm. apply Z.div_lt_upper_bound; [apply Z.pow_pos_nonneg; lia |].
  rewrite <- Z.pow_add_r by lia. by replace (n + (k - (e + n))) with (k - e) by lia.
Qed.

Lemma shift_at_most (m e n k : Z) :
  0 <= n -> e + n <= k -> m <= 2 ^ (k - e) -> m / 2 ^ n <= 2 ^ (k - (e + n)).
Proof.
  intros Hn Hk Hm.
  assert (Hp : 0 < 2 ^ n) by (apply Z.pow_pos_nonneg; lia).
  replace (2 ^ (k - (e + n))) with (2 ^ (k - e) / 2 ^ n).
  - by apply Z.div_le_mono.
  - replace (k - e) with ((k - (e + n)) + n) by lia.
    rewrite Z.pow_add_r by lia. apply Z.div_mul. lia.
Qed.

Lemma shift_at_least (m e n j : Z) :
  0 <= n -> 0 < m -> n <= Zdigits2 m - 1 -> 2 ^ (j - e) <= m ->
  1 <= m / 2 ^ n /\ 2 ^ (j - (e + n)) <= m / 2 ^ n.
Proof.
  intros Hn Hm Hd Hj.
  assert (Hp : 0 < 2 ^ n) by (apply Z.pow_pos_nonneg; lia).
  destruct (Zdigits2_bounds m Hm) as [Hlo _].
  split.
  - apply Z.div_le_lower_bound; [done |].
    assert (2 ^ n <= 2 ^ (Zdigits2 m - 1)) by (apply Z.pow_le_mono_r; lia). lia.
  - destruct (Z.lt_ge_cases (j - (e + n)) 0) as [Hneg | Hpos].
    + rewrite (Z.pow_neg_r _ _ Hneg). apply Z.div_pos; lia.
    + apply Z.div_le_lower_bound; [done |].
      rewrite <- Z.pow_add_r by lia. by replace (n + (j - (e + n))) with (j - e) by lia.
Qed.

(** The value [binary_round_aux] returns stays at or below the power of
    two above its argument, and does not overflow. *)
Lemma binary_round_aux_upper (sx : bool) (m e : Z) (l : location) (k : Z) :
  1 <= prec ->
  SpecFloat.emin prec emax <= k - prec -> k < emax -> e <= emax - prec -> e < k ->
  0 <= m < 2 ^ (k - e) ->
  binary_round_aux prec emax sx m e l = S754_zero sx \/
  exists p e',
    binary_round_aux prec emax sx m e l = S754_finite sx p e' /\
    Z.pos p <= 2 ^ (k - e') /\ e' <= k.
Proof.
  intros Hprec Hmin Hmax He Hek [Hm Hlt].
  destruct (binary_round_aux_spec sx m e l Hm) as (m2 & Hm2 & _ & ->).
  pose proof (shr_amount_nonneg m e) as Hn1.
  assert (Hd1 : Zdigits2 m + e <= k).
  { pose proof (Zdigits2_le m (k - e) Hm ltac:(lia) Hlt). lia. }
  pose proof (shr_amount_upper m e k Hd1 Hmin) as He1.
  pose proof (shift_below m e (shr_amount prec emax m e) k Hn1 ltac:(lia) Hlt) as Hm1.
  assert (Hm1' : 0 <= m / 2 ^ shr_amount prec emax m e)
    by (apply Z.div_pos; [lia | apply pow2_shr_amount_pos]).
  set (e1 := e + shr_amount prec emax m e) in *.
  pose proof (shr_amount_nonneg m2 e1) as Hn2.
  assert (Hd2 : Zdigits2 m2 + e1 <= k + 1).
  { assert (m2 < 2 ^ (k + 1 - e1)).
    { replace (k + 1 - e1) with (Z.succ (k - e1)) by lia.
      rewrite Z.pow_succ_r by lia.
      assert (0 < 2 ^ (k - e1)) by (apply Z.pow_pos_nonneg; lia). lia. }
    pose proof (Zdigits2_le m2 (k + 1 - e1) ltac:(lia) ltac:(lia) H). lia. }
  pose proof (shr_amount_upper m2 e1 (k + 1) Hd2 ltac:(lia)) as He2.
  pose proof (shift_at_most m2 e1 (shr_amount prec emax m2 e1) k Hn2 ltac:(lia) ltac:(lia)) as Hm3.
  assert (Hm3' : 0 <= m2 / 2 ^ shr_amount prec emax m2 e1)
    by (apply Z.div_pos; [lia | apply pow2_shr_amount_pos]).
  destruct (m2 / 2 ^ shr_amount prec emax m2 e1) as [| p | p]; [by left | | lia].
  right. exists p, (e1 + shr_amount prec emax m2 e1).
  destruct (e1 + shr_amount prec emax m2 e1 <=? emax - prec) eqn:E; [| apply Z.leb_gt in E; lia].
  split; [done |]. split; [done | lia].
Qed.

(** A value of at least a power of two stays so, and is not flushed to
    zero, when its exponent is in the normal range. *)
Lemma binary_round_aux_lower (sx : bool) (m e : Z) (l : location) (j k : Z) :
  1 <= prec ->
  SpecFloat.emin prec emax <= j + 1 - prec -> j < k ->
  SpecFloat.emin prec emax <= k - prec -> k < emax -> e <= emax - prec -> e < k ->
  0 < m -> 2 ^ (j - e) <= m < 2 ^ (k - e) ->
  exists p e',
    binary_round_aux prec emax sx m e l = S754_finite sx p e' /\
    2 ^ (j - e') <= Z.pos p <= 2 ^ (k - e') /\ e' <= k.
Proof.
  intros Hprec Hminj Hjk Hmin Hmax He Hek Hm [Hlo Hlt].
  destruct (binary_round_aux_upper sx m e l k Hprec Hmin Hmax He Hek ltac:(lia))
    as [Hz | (p & e' & Hf & Hup & He')].
  - exfalso. revert Hz.
    destruct (binary_round_aux_spec sx m e l ltac:(lia)) as (m2 & Hm2 & _ & ->).
    assert (Hd1 : j + 1 <= Zdigits2 m + e).
    { pose proof (Zdigits2_gt m (j - e) Hm Hlo). lia. }
    pose proof (shr_amount_lower m e Hprec Hm ltac:(lia)) as Hn1.
    destruct (shift_at_least m e (shr_amount prec emax m e) j
                (shr_amount_nonneg m e) Hm Hn1 Hlo) as [H1 H1j].
    set (e1 := e + shr_amount prec emax m e) in *.
    assert (Hm2' : 0 < m2) by lia.
    assert (Hd2 : j + 1 <= Zdigits2 m2 + e1).
    { pose proof (Zdigits2_gt m2 (j - e1) Hm2' ltac:(lia)). lia. }
    pose proof (shr_amount_lower m2 e1 Hprec Hm2' ltac:(lia)) as Hn2.
    destruct (shift_at_least m2 e1 (shr_amount prec emax m2 e1) j
                (shr_amount_nonneg m2 e1) Hm2' Hn2 ltac:(lia))
      as [H3 _].
    destruct (m2 / 2 ^ shr_amount prec emax m2 e1) as [| q | q]; try lia.
    destruct (_ <=? _); discriminate.
  - exists p, e'. split; [done |]. split; [| done]. split; [| done].
    revert Hf.
    destruct (binary_round_aux_spec sx m e l ltac:(lia)) as (m2 & Hm2 & _ & ->).
    assert (Hd1 : j + 1 <= Zdigits2 m + e).
    { pose proof (Zdigits2_gt m (j - e) Hm Hlo). lia. }
    pose proof (shr_amount_lower m e Hprec Hm ltac:(lia)) as Hn1.
    destruct (shift_at_least m e (shr_amount prec emax m e) j
                (shr_amount_nonneg m e) Hm Hn1 Hlo) as [H1 H1j].
    set (e1 := e + shr_amount prec emax m e) in *.
    assert (Hm2' : 0 < m2) by lia.
    assert (Hd2 : j + 1 <= Zdigits2 m2 + e1).
    { pose proof (Zdigits2_gt m2 (j - e1) Hm2' ltac:(lia)). lia. }
    pose proof (shr_amount_lower m2 e1 Hprec Hm2' ltac:(lia)) as Hn2.
    destruct (shift_at_least m2 e1 (shr_amount prec emax m2 e1) j
                (shr_amount_nonneg m2 e1) Hm2' Hn2 ltac:(lia))
      as [H3 H3j].
    destruct (m2 / 2 ^ shr_amount prec emax m2 e1) as [| q | q]; try discriminate.
    destruct (_ <=? _); [| discriminate]. intros [= <- <-]. exact H3j.
Qed.

Lemma Zdigits2_unique (m d : Z) :
  0 < m -> 2 ^ (d - 1) <= m < 2 ^ d -> Zdigits2 m = d.
Proof.
  intros Hm [Hlo Hhi].
  assert (0 < d).
  { destruct (Z.lt_ge_cases 0 d) as [| Hle]; [done |].
    assert (2 ^ d <= 2 ^ 0) by (apply Z.pow_le_mono_r; lia). simpl in *. lia. }
  pose proof (Zdigits2_le m d ltac:(lia) ltac:(lia) Hhi).
  pose proof (Zdigits2_gt m (d - 1) Hm Hlo). lia.
Qed.

Lemma iter_xO (m d : positive) : Z.pos (Pos.iter xO m d) = Z.pos m * 2 ^ Z.pos d.
Proof.
  change (Pos.iter xO m d) with (shift_pos d m).
  rewrite shift_pos_correct. change (Z.pow_pos 2 d) with (2 ^ Z.pos d). lia.
Qed.

(** An integer of at most [prec] bits is converted exactly. *)
Lemma binary_normalize_exact (z : Z) :
  1 <= prec -> 0 < z -> Zdigits2 z <= prec -> SpecFloat.emin prec emax <= Zdigits2 z - prec ->
  prec <= emax ->
  exists m e,
    binary_normalize prec emax z 0 false = S754_finite false m e /\
    e <= 0 /\ Z.pos m = z * 2 ^ (- e).
Proof.
  intros Hprec Hz Hd Hmin Hmax. destruct z as [| p | p]; try lia.
  cbn [binary_normalize]. unfold binary_round.
  assert (Hf : fexp prec emax (Z.pos (digits2_pos p) + 0) = Zdigits2 (Z.pos p) - prec).
  { unfold fexp, SpecFloat.emin in *. cbn [Zdigits2] in *. lia. }
  rewrite Hf. unfold shl_align.
  destruct (Zdigits2 (Z.pos p) - prec - 0) as [| q | q] eqn:E.
  - destruct (binary_round_aux_spec false (Z.pos p) 0 loc_Exact ltac:(lia))
      as (m2 & _ & Hm2 & ->).
    assert (Hdrop : shr_amount prec emax (Z.pos p) 0 = 0).
    { unfold shr_amount, fexp, SpecFloat.emin in *. cbn [Zdigits2] in *. lia. }
    rewrite (Hm2 Hdrop eq_refl), Hdrop, Z.add_0_r, Hdrop. cbn [Z.pow Z.add].
    rewrite Z.div_1_r.
    change (0 + 0) with 0.
    destruct (0 <=? emax - prec) eqn:E2; [| apply Z.leb_gt in E2; lia].
    exists p, 0. split; [done |]. split; [done | simpl; lia].
  - lia.
  - set (mz := Pos.iter xO p q). set (ez := Zdigits2 (Z.pos p) - prec).
    assert (Hmz : Z.pos mz = Z.pos p * 2 ^ Z.pos q) by apply iter_xO.
    assert (Hez : ez = - Z.pos q) by (unfold ez; lia).
    assert (Hdz : Zdigits2 (Z.pos mz) = Zdigits2 (Z.pos p) + Z.pos q).
    { apply Zdigits2_unique; [lia |]. rewrite Hmz.
      destruct (Zdigits2_bounds (Z.pos p) ltac:(lia)) as [Hlo Hhi].
      pose proof (Zdigits2_gt (Z.pos p) 0 ltac:(lia) ltac:(simpl; lia)).
      replace (Zdigits2 (Z.pos p) + Z.pos q - 1)
        with ((Zdigits2 (Z.pos p) - 1) + Z.pos q) by lia.
      rewrite !Z.pow_add_r by lia.
      assert (0 < 2 ^ Z.pos q) by (apply Z.pow_pos_nonneg; lia). nia. }
    destruct (binary_round_aux_spec false (Z.pos mz) ez loc_Exact ltac:(lia))
      as (m2 & _ & Hm2 & ->).
    assert (Hdrop : shr_amount prec emax (Z.pos mz) ez = 0).
    { unfold shr_amount, fexp, SpecFloat.emin in *. rewrite Hdz. unfold ez in *. lia. }
    rewrite (Hm2 Hdrop eq_refl), Hdrop, Z.add_0_r, Hdrop. cbn [Z.pow].
    rewrite Z.add_0_r, Z.div_1_r.
    destruct (ez <=? emax - prec) eqn:E2; [| apply Z.leb_gt in E2; lia].
    exists mz, ez. split; [done |]. split; [lia |]. by rewrite Hmz, Hez, Z.opp_involutive.
Qed.

Lemma pow2_gt_1 (a : Z) : 1 < 2 ^ a -> 0 < a.
Proof.
  intros H. destruct (Z.lt_ge_cases 0 a) as [| Hle]; [done |].
  assert (2 ^ a <= 2 ^ 0) by (apply Z.pow_le_mono_r; lia). simpl in *. lia.
Qed.

(** The integer quotient [SFdiv_core_binary] hands to the rounding, for a
    dividend below [2^k1] and a divisor of at least [2^j2]. *)
Lemma SFdiv_core_upper (m1 m2 : positive) (e1 e2 k1 j2 : Z) :
  1 <= prec ->
  Z.pos m1 < 2 ^ (k1 - e1) -> 2 ^ (j2 - e2) <= Z.pos m2 ->
  SpecFloat.emin prec emax <= k1 - j2 - 1 - prec ->
  exists q e' l,
    SFdiv_core_binary prec emax (Z.pos m1) e1 (Z.pos m2) e2 = (q, e', l) /\
    0 <= q < 2 ^ (k1 - j2 - e') /\ e' <= k1 - j2 - 1 - prec.
Proof.
  intros Hprec H1 H2 Hmin. unfold SFdiv_core_binary.
  set (d1 := Zdigits2 (Z.pos m1)). set (d2 := Zdigits2 (Z.pos m2)).
  set (e' := Z.min (fexp prec emax (d1 + e1 - (d2 + e2))) (e1 - e2)).
  assert (Hk1 : 0 < k1 - e1) by (apply pow2_gt_1; lia).
  assert (Hd1 : d1 + e1 <= k1).
  { pose proof (Zdigits2_le (Z.pos m1) (k1 - e1) ltac:(lia) ltac:(lia) H1). unfold d1. lia. }
  assert (Hd2 : j2 + 1 <= d2 + e2).
  { pose proof (Zdigits2_gt (Z.pos m2) (j2 - e2) ltac:(lia) H2). unfold d2. lia. }
  assert (He' : e' <= k1 - j2 - 1 - prec /\ e' <= e1 - e2).
  { unfold e', fexp, SpecFloat.emin in *. lia. }
  set (s := e1 - e2 - e').
  assert (Hs : 0 <= s) by (unfold s; lia).
  set (m' := match s with Z.pos _ => Z.shiftl (Z.pos m1) s | 0 => Z.pos m1 | Z.neg _ => 0 end).
  assert (Hm' : m' = Z.pos m1 * 2 ^ s).
  { unfold m'. destruct s as [| p | p] eqn:E; [simpl; lia | | lia].
    apply Z.shiftl_mul_pow2. lia. }
  assert (Hdiv : Z.div_eucl m' (Z.pos m2) = (m' / Z.pos m2, m' mod Z.pos m2)).
  { unfold Z.div, Z.modulo. by destruct (Z.div_eucl m' (Z.pos m2)). }
  rewrite Hdiv. eexists _, _, _. split; [reflexivity |]. split; [| lia].
  assert (Hps : 0 < 2 ^ s) by (apply Z.pow_pos_nonneg; lia).
  assert (Hm'pos : 0 <= m') by lia.
  split; [apply Z.div_pos; lia |].
  assert (Hq : Z.pos m2 * (m' / Z.pos m2) <= m') by (apply Z.mul_div_le; lia).
  assert (Hq0 : 0 <= m' / Z.pos m2) by (apply Z.div_pos; lia).
  assert (Hlt : m' < 2 ^ (k1 - e2 - e')).
  { rewrite Hm'. replace (k1 - e2 - e') with ((k1 - e1) + s) by (unfold s; lia).
    rewrite Z.pow_add_r by lia. nia. }
  destruct (Z.lt_ge_cases (j2 - e2) 0) as [Hneg | Hpos].
  - assert (m' / Z.pos m2 <= m') by nia.
    destruct (Z.lt_ge_cases (k1 - e2 - e') 0) as [Hn | Hp].
    + rewrite (Z.pow_neg_r _ _ Hn) in Hlt. lia.
    + assert (2 ^ (k1 - e2 - e') <= 2 ^ (k1 - j2 - e')) by (apply Z.pow_le_mono_r; lia).
      lia.
  - replace (k1 - e2 - e') with ((k1 - j2 - e') + (j2 - e2)) in Hlt by lia.
    rewrite Z.pow_add_r in Hlt by lia.
    assert (0 < 2 ^ (j2 - e2)) by (apply Z.pow_pos_nonneg; lia).
    assert (0 < 2 ^ (k1 - j2 - e')) by (apply Z.pow_pos_nonneg; lia).
    nia.
Qed.

(** The integer part of a value of at most [2^k]. *)
Lemma shiftl_upper (p : positive) (e k : Z) :
  0 <= k -> e <= k -> Z.pos p <= 2 ^ (k - e) -> 0 <= Z.shiftl (Z.pos p) e <= 2 ^ k.
Proof.
  intros Hk He Hp. split; [apply Z.shiftl_nonneg; lia |].
  destruct (Z.lt_ge_cases e 0) as [Hneg | Hpos].
  - rewrite Z.shiftl_div_pow2 by lia.
    pose proof (shift_at_most (Z.pos p) e (- e) k ltac:(lia) ltac:(lia) Hp) as H.
    by replace (k - (e + - e)) with k in H by lia.
  - rewrite Z.shiftl_mul_pow2 by lia.
    assert (Hk2 : 2 ^ k = 2 ^ (k - e) * 2 ^ e)
      by (rewrite <- Z.pow_add_r by lia; f_equal; lia).
    rewrite Hk2. apply Z.mul_le_mono_nonneg_r; [apply Z.pow_nonneg; lia | done].
Qed.
End Rounding.


Lemma int_exact (fmt : double_format) (z : Z) :
  supported_format fmt = true -> 0 < z <= INT_MAX ->
  exists m e,
    sf_of_int fmt z = S754_finite false m e /\
    e <= 0 /\ 2 ^ (0 - e) <= Z.pos m < 2 ^ (15 - e).
Proof.
  unfold supported_format, INT_MAX. intros Hf Hz.
  apply andb_prop in Hf as [Hf _]. apply andb_prop in Hf as [Hf He].
  apply andb_prop in Hf as [Hp Hpe].
  apply Z.leb_le in Hp, Hpe, He.
  assert (Hd : Zdigits2 z <= 15) by (apply Zdigits2_le; lia).
  pose proof (Zdigits2_gt z 0 ltac:(lia) ltac:(simpl; lia)) as Hd0.
  destruct (binary_normalize_exact (significand_bits fmt) (exponent_bound fmt) z)
    as (m & e & Hn & He0 & Hm); [lia | lia | lia | unfold SpecFloat.emin; lia | lia |].
  exists m, e. split; [exact Hn |]. split; [done |].
  rewrite Hm. replace (0 - e) with (- e) by lia.
  assert (0 < 2 ^ (- e)) by (apply Z.pow_pos_nonneg; lia).
  replace (15 - e) with (15 + - e) by lia. rewrite Z.pow_add_r by lia.
  change (2 ^ 15) with 32768. nia.
Qed.

(** In a supported format the division of [ISR] always yields an [int]:
    the divisor is at least 2, so the quotient is at most half the
    duration. *)
Lemma frame_period_in_total (fmt : double_format) (t n : Z) :
  supported_format fmt = true ->
  0 < t <= INT_MAX -> 0 < n <= INT_MAX ->
  exists v, frame_period_in fmt t n = Ok v /\ 0 <= v <= 16384.
Proof.
  intros Hf Ht Hn.
  destruct (int_exact fmt t Hf Ht) as (mx & ex & Hx & Hex & Hmx).
  destruct (int_exact fmt n Hf Hn) as (mn & en & Hxn & Hen & Hmn).
  unfold frame_period_in. rewrite Hx, Hxn.
  unfold supported_format in Hf.
  apply andb_prop in Hf as [Hf Hc]. apply andb_prop in Hf as [Hf He].
  apply andb_prop in Hf as [Hp Hpe].
  apply Z.leb_le in Hp, Hpe, He.
  destruct (two_point_four fmt) as [| | | [] mc ec]; try discriminate.
  apply andb_prop in Hc as [Hc Hhi]. apply andb_prop in Hc as [Hec Hlo].
  apply Z.leb_le in Hec, Hlo. apply Z.ltb_lt in Hhi.
  set (prec := significand_bits fmt) in *. set (emax := exponent_bound fmt) in *.
  assert (Hprec : 1 <= prec) by lia.
  cbn [SFmul xorb].
  destruct (binary_round_aux_lower prec emax false (Z.pos (mc * mn)) (ec + en)
              loc_Exact 1 17) as (md & ed & Hd & [Hdlo _] & _);
    try (unfold SpecFloat.emin; lia).
  { rewrite Pos2Z.inj_mul. split.
    - replace (1 - (ec + en)) with ((1 - ec) + (0 - en)) by lia.
      rewrite Z.pow_add_r by lia.
      apply Z.mul_le_mono_nonneg; try lia; apply Z.pow_nonneg; lia.
    - replace (17 - (ec + en)) with ((2 - ec) + (15 - en)) by lia.
      rewrite Z.pow_add_r by lia.
      apply Z.mul_lt_mono_nonneg; lia. }
  rewrite Hd. cbn [SFdiv xorb].
  destruct (SFdiv_core_upper prec emax mx md ex ed 15 1)
    as (q & e' & l & Hcore & Hq & He'); [lia | lia | done | unfold SpecFloat.emin; lia |].
  rewrite Hcore.
  destruct (binary_round_aux_upper prec emax false q e' l 14)
    as [Hz | (p & e'' & Hr & Hpb & He'')];
    try (unfold SpecFloat.emin; lia).
  { replace (14 - e') with (15 - 1 - e') by lia. lia. }
  - rewrite Hz. exists 0. split; [done | lia].
  - rewrite Hr. cbn [sf_to_int].
    pose proof (shiftl_upper p e'' 14 ltac:(lia) He'' Hpb) as Hv.
    change (2 ^ 14) with 16384 in Hv.
    exists (Z.shiftl (Z.pos p) e''). split; [| done].
    cbv zeta. unfold INT_MIN, INT_MAX.
    destruct ((_ <=? _) && (_ <=? _)) eqn:E; [done |].
    apply andb_false_iff in E as [E | E]; [apply Z.leb_gt in E | apply Z.leb_gt in E]; lia.
Qed.

Lemma supported_formats :
  supported_format binary64 = true /\
  supported_format binary32 = true /\
  supported_format truncated24 = true.
Proof. repeat split; vm_compute; reflexivity. Qed.


(** [1848 / 2.4] is 770; the narrow formats hold [2.4] slightly above its
    value and the rounded quotient stays below 770. *)
Example frame_period_of_1848_by_1 :
  exact_frame_period 1848 1 = 770 /\
  frame_period_in binary64 1848 1 = Ok 770 /\
  frame_period_in binary32 1848 1 = Ok 769 /\
  frame_period_in truncated24 1848 1 = Ok 769.
Proof. repeat split; vm_compute; reflexivity. Qed.

(** ** The interrupt service routine *)

(** The routine by cases: which edge, and whether its duration passes the
    threshold. *)
Lemma ISR_cases (st : state) :
  ISR st =
    if C1OUT st then
      if 1500 <? read_duration st then
        v ← frame_period (read_duration st) (lengthOfMessage st);
        Ok (started v st)
      else Ok (ignored st)
    else
      if 14000 <? read_duration st then Ok (ended st) else Ok (ignored st).
Proof.
  destruct st as [msg segs n tps dv run th tl ton out cif port].
  unfold ISR, read_duration. simpl.
  destruct out; simpl.
  - destruct (1500 <? _); [| reflexivity].
    destruct (frame_period _ _); reflexivity.
  - destruct (14000 <? _); reflexivity.
Qed.

Lemma read_duration_range (st : state) : INT_MIN <= read_duration st <= INT_MAX.
Proof. apply int_wrap_range. Qed.

Lemma ISR_in_cases (fmt : double_format) (st : state) :
  ISR_in fmt st =
    if C1OUT st then
      if 1500 <? read_duration st then
        v ← frame_period_in fmt (read_duration st) (lengthOfMessage st);
        Ok (started v st)
      else Ok (ignored st)
    else
      if 14000 <? read_duration st then Ok (ended st) else Ok (ignored st).
Proof.
  destruct st as [msg segs n tps dv run th tl ton out cif port].
  unfold ISR_in, read_duration. simpl.
  destruct out; simpl.
  - destruct (1500 <? _); [| reflexivity].
    destruct (frame_period_in _ _ _); reflexivity.
  - destruct (14000 <? _); reflexivity.
Qed.

(** [duration] is the timer count as long as an [int] holds it. *)
Lemma read_duration_count (st : state) :
  INT_MIN <= timer_count st <= INT_MAX -> read_duration st = timer_count st.
Proof. apply int_wrap_small. Qed.




(** Without frames the division is by zero and its result is no [int]:
    the claim's [n > 0] is needed. *)
Example start_edge_without_frames :
  ISR (set_C1OUT true (set_TMR1H 14 (set_TMR1L 16 (initial_state [])))) = Fault NotAnInt.
Proof. vm_compute. reflexivity. Qed.

(** C2: an edge whose duration is at or below its threshold (1500 on
    leftward, 14000 on rightward acceleration) changes neither
    [timePerSegment], [isSequenceRunning] nor [delayingVariable] and leaves
    the count in TMR1 as it is; the routine only restarts the timer and
    clears the interrupt flag. *)
Theorem edge_below_threshold_ignored (st : state) :
  read_duration st <= (if C1OUT st then 1500 else 14000) ->
  ISR st = Ok (ignored st) /\
  timePerSegment (ignored st) = timePerSegment st /\
  isSequenceRunning (ignored st) = isSequenceRunning st /\
  delayingVariable (ignored st) = delayingVariable st /\
  TMR1H (ignored st) = TMR1H st /\ TMR1L (ignored st) = TMR1L st.
Proof.
  intros H. split; [| by repeat split].
  rewrite ISR_cases. destruct (C1OUT st).
  - destruct (1500 <? read_duration st) eqn:E; [apply Z.ltb_lt in E; lia | done].
  - destruct (14000 <? read_duration st) eqn:E; [apply Z.ltb_lt in E; lia | done].
Qed.

Lemma edge_below_threshold_ignored_witness :
  ISR (set_C1OUT false (set_TMR1H 54 (set_TMR1L 176 (initial_state main_message))))
  = Ok (ignored (set_C1OUT false (set_TMR1H 54 (set_TMR1L 176
          (initial_state main_message))))).
Proof.
  apply (edge_below_threshold_ignored
           (set_C1OUT false (set_TMR1H 54 (set_TMR1L 176 (initial_state main_message))))).
  vm_compute. discriminate.
Defined.

(** C3 fails, on two counts.  A rightward edge 40000 ticks after the last
    one is ignored, its count read as -25536.  And after a validated end
    edge (here at 14001 ticks) [delayingVariable] is 1, not 0: a loop that
    was about to evaluate its condition finds it true once more and makes
    another decrement before it leaves. *)
Lemma end_edge_counterexample :
  (timer_count (at_edge false 40000 10) = 40000 /\
   ISR (at_edge false 40000 10) = Ok (ignored (at_edge false 40000 10)) /\
   timePerSegment (ignored (at_edge false 40000 10)) = 100) /\
  (timer_count (at_edge false 14001 10) = 14001 /\
   ISR (at_edge false 14001 10) = Ok (ended (at_edge false 14001 10)) /\
   delay_condition (ended (at_edge false 14001 10)) = true /\
   delay_steps [] AtTest 0 (ended (at_edge false 14001 10))
   = Ok (1, [], delay_decrement (ended (at_edge false 14001 10)))).
Proof. repeat split; vm_compute; reflexivity. Qed.

(** C3, amended: on rightward acceleration ([C1OUT = 0]) with a timer
    count [t] that an [int] holds, [14000 < t <= 32767], the routine sets
    [timePerSegment] to 0 and [delayingVariable] to 1, clears TMR1 and does
    nothing else, whatever the format of [double].  The interrupted delay
    loop then makes exactly one more decrement and leaves: at its next
    evaluation of the condition when the edge came between a test and the
    decrement, at the one after when it came just before a test. *)
Theorem end_edge_validated_in_int_range (st : state) (t : Z) :
  C1OUT st = false -> timer_count st = t -> 14000 < t <= INT_MAX ->
  ISR st = Ok (ended st) /\
  (forall fmt, ISR_in fmt st = Ok (ended st)) /\
  delay_condition (ended st) = true /\
  delayingVariable (delay_decrement (ended st)) = 0 /\
  delay_condition (delay_decrement (ended st)) = false /\
  (forall p ticks,
     delay_steps [] p ticks (ended st)
     = Ok (ticks + 1, [], delay_decrement (ended st))).
Proof.
  intros Hout Ht Hlt.
  assert (Hd : read_duration st = t).
  { rewrite read_duration_count; rewrite Ht; unfold INT_MIN, INT_MAX in *; lia. }
  split; [| split; [| split; [reflexivity | split; [reflexivity | split; [reflexivity |]]]]].
  - rewrite ISR_cases, Hout, Hd.
    destruct (14000 <? t) eqn:E; [done | apply Z.ltb_ge in E; lia].
  - intros fmt. rewrite ISR_in_cases, Hout, Hd.
    destruct (14000 <? t) eqn:E; [done | apply Z.ltb_ge in E; lia].
  - intros [] ticks; reflexivity.
Qed.

Lemma end_edge_validated_in_int_range_witness :
  ISR (at_edge false 14001 10) = Ok (ended (at_edge false 14001 10)).
Proof.
  apply (end_edge_validated_in_int_range (at_edge false 14001 10) 14001);
    try reflexivity. unfold INT_MAX. lia.
Defined.

(** An end edge served during an iteration of the delay loop: the loop
    makes the decrement of that iteration and stops. *)
Lemma abort_during_delay (e : edge) (w : schedule) (ticks : Z) (st : state) :
  delay_condition st = true ->
  edge_C1OUT e = false ->
  14000 < int_wrap (edge_TMR1L e + 256 * edge_TMR1H e) ->
  exists st',
    delay_loop (Some e :: w) ticks st = Ok (ticks + 1, w, st') /\
    delayingVariable st' = 0 /\ timePerSegment st' = 0 /\
    isSequenceRunning st' = isSequenceRunning st /\ PORTC st' = PORTC st.
Proof.
  intros Hc Hout Ht. simpl. rewrite Hc. unfold interrupt.
  rewrite ISR_cases. simpl C1OUT. rewrite Hout.
  unfold read_duration. simpl TMR1L. simpl TMR1H.
  destruct (14000 <? _) eqn:E; [| apply Z.ltb_ge in E; lia].
  simpl. eexists. split; [destruct w; reflexivity |]. by repeat split.
Qed.

(** ** Rendering *)

(** With a frame count a message can have, the routine always returns, and
    it never touches the frames or their count. *)
Lemma ISR_total (st : state) :
  0 < lengthOfMessage st <= MAX_FRAMES ->
  exists st',
    ISR st = Ok st' /\
    letterSegments st' = letterSegments st /\
    lengthOfMessage st' = lengthOfMessage st.
Proof.
  intros Hn. rewrite ISR_cases. destruct (C1OUT st).
  - destruct (1500 <? read_duration st) eqn:E; [| by eexists].
    apply Z.ltb_lt in E. pose proof (read_duration_range st).
    rewrite frame_period_exact by lia. by eexists.
  - destruct (14000 <? read_duration st); by eexists.
Qed.

Lemma serve_total (o : option edge) (st : state) :
  0 < lengthOfMessage st <= MAX_FRAMES ->
  exists st',
    serve o st = Ok st' /\
    letterSegments st' = letterSegments st /\
    lengthOfMessage st' = lengthOfMessage st.
Proof.
  intros Hn. destruct o as [e |]; [| by eexists].
  unfold serve, interrupt.
  destruct (ISR_total (set_C1IF true (set_TMR1L (edge_TMR1L e)
              (set_TMR1H (edge_TMR1H e) (set_C1OUT (edge_C1OUT e) st)))))
    as (st' & H & Hs & Hl); [done |].
  by exists st'.
Qed.

Lemma countdown_keeps (fuel : nat) (ticks : Z) (st : state) :
  letterSegments (countdown fuel ticks st).2 = letterSegments st /\
  lengthOfMessage (countdown fuel ticks st).2 = lengthOfMessage st /\
  timePerSegment (countdown fuel ticks st).2 = timePerSegment st.
Proof.
  revert ticks st. induction fuel as [| fuel IH]; intros ticks st; simpl; [done |].
  destruct (delay_condition st); [| done].
  destruct (IH (ticks + 1) (delay_decrement st)) as (H1 & H2 & H3).
  by rewrite H1, H2, H3.
Qed.

(** Left alone, the loop makes [delayingVariable] decrements when that is
    positive and none otherwise. *)
Lemma countdown_ticks (d : Z) (ticks : Z) (st : state) :
  delayingVariable st = d -> d <= INT_MAX ->
  (countdown (Z.to_nat d) ticks st).1 = ticks + Z.max 0 d.
Proof.
  intros Hd Hmax. destruct (Z.le_gt_cases d 0) as [Hle | Hgt].
  - replace (Z.to_nat d) with 0%nat by lia. simpl. lia.
  - rewrite <- (Z2Nat.id d) in Hd |- * at 2 by lia.
    assert (Hb : Z.of_nat (Z.to_nat d) <= INT_MAX) by lia.
    clear Hgt Hmax. revert ticks st Hd Hb.
    induction (Z.to_nat d) as [| k IH]; intros ticks st Hd Hb; simpl; [lia |].
    unfold delay_condition. rewrite Hd.
    destruct (0 <? Z.of_nat (S k)) eqn:E; [| apply Z.ltb_ge in E; lia].
    rewrite IH; [lia | | lia].
    unfold delay_decrement. simpl. rewrite Hd.
    rewrite int_wrap_small by (unfold INT_MIN, INT_MAX in *; lia). lia.
Qed.

Lemma delay_loop_total (w : schedule) (ticks : Z) (st : state) :
  0 < lengthOfMessage st <= MAX_FRAMES ->
  exists k w' st',
    delay_loop w ticks st = Ok (k, w', st') /\
    letterSegments st' = letterSegments st /\
    lengthOfMessage st' = lengthOfMessage st.
Proof.
  revert ticks st. induction w as [| o w IH]; intros ticks st Hn; simpl.
  - pose proof (countdown_keeps (Z.to_nat (delayingVariable st)) ticks st)
      as (H1 & H2 & _).
    destruct (countdown _ ticks st) as [k st']. by exists k, [], st'.
  - destruct (delay_condition st); [| by exists ticks, (o :: w), st].
    destruct (serve_total o st Hn) as (st1 & -> & Hs & Hl). simpl.
    destruct (IH (ticks + 1) (delay_decrement st1)) as (k & w' & st' & -> & Hs' & Hl').
    { simpl. by rewrite Hl. }
    exists k, w', st'. simpl in Hs', Hl'. split; [done |]. split; congruence.
Qed.

(** Whatever the interrupts do, every frame is written to [PORTC], from
    the last one down to the first. *)
Lemma show_frames_total (count : nat) (w : schedule) (shown : list (Z * Z)) (st : state) :
  (count <= length (letterSegments st))%nat ->
  (count <> 0%nat -> 0 < lengthOfMessage st <= MAX_FRAMES) ->
  exists w' shown' st',
    show_frames count w shown st = Ok (w', shown ++ shown', st') /\
    shown'.*1 = reverse (take count (letterSegments st)) /\
    letterSegments st' = letterSegments st.
Proof.
  revert w shown st. induction count as [| i IH]; intros w shown st Hlen Hn; simpl.
  - exists w, [], st. by rewrite app_nil_r.
  - destruct (lookup_lt_is_Some_2 (letterSegments st) i) as [v Hv]; [lia |].
    unfold load. rewrite Hv. simpl. unfold delay.
    destruct (delay_loop_total w 0
                (set_delayingVariable (timePerSegment st) (set_PORTC v st)))
      as (k & w1 & st1 & -> & Hs1 & Hl1); [simpl; apply Hn; lia |].
    simpl in Hs1, Hl1. simpl.
    destruct (IH w1 (shown ++ [(v, k)]) st1) as (w' & shown' & st' & -> & Hf & Hs');
      [rewrite Hs1; lia | intros _; rewrite Hl1; apply Hn; lia |].
    exists w', ((v, k) :: shown'), st'.
    split; [by rewrite <- app_assoc |].
    split; [| congruence].
    by rewrite (take_S_r _ _ _ Hv), reverse_snoc, fmap_cons, Hf, Hs1.
Qed.

(** With no interrupt, each frame is held for [timePerSegment] ticks. *)
Lemma show_frames_quiet (count : nat) (shown : list (Z * Z)) (st : state) :
  (count <= length (letterSegments st))%nat ->
  timePerSegment st <= INT_MAX ->
  exists st',
    show_frames count [] shown st =
      Ok ([], shown ++ ((fun v => (v, Z.max 0 (timePerSegment st)))
                          <$> reverse (take count (letterSegments st))), st').
Proof.
  revert shown st. induction count as [| i IH]; intros shown st Hlen Hmax; simpl.
  - exists st. by rewrite app_nil_r.
  - destruct (lookup_lt_is_Some_2 (letterSegments st) i) as [v Hv]; [lia |].
    unfold load. rewrite Hv. simpl. unfold delay. simpl.
    pose proof (countdown_keeps (Z.to_nat (timePerSegment st)) 0
                  (set_delayingVariable (timePerSegment st) (set_PORTC v st)))
      as (Hs & _ & Ht).
    pose proof (countdown_ticks (timePerSegment st) 0
                  (set_delayingVariable (timePerSegment st) (set_PORTC v st))
                  eq_refl Hmax) as Hk.
    destruct (countdown _ 0 _) as [k st1]. simpl in Hs, Ht, Hk. subst k. simpl.
    destruct (IH (shown ++ [(v, 0 + Z.max 0 (timePerSegment st))]) st1) as (st' & ->);
      [rewrite Hs; lia | rewrite Ht; lia |].
    exists st'. rewrite (take_S_r _ _ _ Hv), reverse_snoc, Hs, Ht, <- app_assoc.
    by rewrite fmap_cons, Z.add_0_l.
Qed.

(** C7: with the running flag set, one turn of the main loop writes the
    frames to [PORTC] from index [lengthOfMessage - 1] down to 0, whatever
    interrupts are served during the delays; afterwards [PORTC] is 0 and
    the running flag is cleared.  When no interrupt arrives, each frame is
    held for [timePerSegment] ticks. *)
Theorem sequence_rendered_in_reverse (w : schedule) (st : state) :
  isSequenceRunning st <> 0 ->
  lengthOfMessage st <= MAX_FRAMES ->
  (Z.to_nat (lengthOfMessage st) <= length (letterSegments st))%nat ->
  timePerSegment st <= INT_MAX ->
  exists w' shown st',
    main_loop_body w st = Ok (w', shown, st') /\
    shown.*1 = reverse (frames st) /\
    PORTC st' = 0 /\
    isSequenceRunning st' = 0 /\
    (w = [] ->
     shown = (fun v => (v, Z.max 0 (timePerSegment st))) <$> reverse (frames st)).
Proof.
  intros Hrun Hmax Hlen Htps. unfold main_loop_body, runLEDSequence, frames.
  destruct (isSequenceRunning st =? 0) eqn:E; [apply Z.eqb_eq in E; done |].
  destruct (show_frames_total (Z.to_nat (lengthOfMessage st)) w [] st)
    as (w' & shown & st' & Hshow & Hf & _); [done | lia |].
  rewrite Hshow. simpl.
  exists w', shown, (set_isSequenceRunning 0 (set_PORTC 0 st')).
  split; [done |]. split; [done |]. split; [done |]. split; [done |].
  intros ->.
  destruct (show_frames_quiet (Z.to_nat (lengthOfMessage st)) [] st Hlen Htps)
    as (st'' & Hq).
  rewrite Hq in Hshow. by injection Hshow as _ <- _.
Qed.

Lemma sequence_rendered_in_reverse_witness :
  exists w' shown st',
    main_loop_body [None; Some (mkEdge false 64 16)]
      (set_timePerSegment 100 (set_isSequenceRunning 1
         (set_segments ([255; 8; 255; 0; 0; 129; 255; 129; 0; 0] ++ replicate 25%nat 0)
            10 (initial_state ["H"; "I"]%char))))
    = Ok (w', shown, st') /\
    shown.*1 = [0; 0; 129; 255; 129; 0; 0; 255; 8; 255] /\
    PORTC st' = 0 /\
    isSequenceRunning st' = 0.
Proof.
  destruct (sequence_rendered_in_reverse [None; Some (mkEdge false 64 16)]
    (set_timePerSegment 100 (set_isSequenceRunning 1
       (set_segments ([255; 8; 255; 0; 0; 129; 255; 129; 0; 0] ++ replicate 25%nat 0)
          10 (initial_state ["H"; "I"]%char)))))
    as (w' & shown & st' & H1 & H2 & H3 & H4 & _).
  - simpl. lia.
  - simpl. unfold MAX_FRAMES. lia.
  - simpl. lia.
  - simpl. unfold INT_MAX. lia.
  - exists w', shown, st'. split; [exact H1 |]. split; [exact H2 |]. split; done.
Defined.

(** ** The message "HI" from start to end

    Ten frames; a start edge after 2400 ticks gives a frame period of 100;
    the ten frames are then shown last to first for 100 ticks each and the
    LEDs are switched off. *)

Example hi_encoded :
  convertMessageStringToSegments (initial_state ["H"; "I"]%char) =
    Ok (set_segments ([255; 8; 255; 0; 0; 129; 255; 129; 0; 0] ++ replicate 25%nat 0)
          10 (initial_state ["H"; "I"]%char)).
Proof. reflexivity. Qed.

Example hi_started :
  ISR (set_C1OUT true (set_TMR1H 9 (set_TMR1L 96
         (set_segments ([255; 8; 255; 0; 0; 129; 255; 129; 0; 0] ++ replicate 25%nat 0)
            10 (initial_state ["H"; "I"]%char)))))
  = Ok (started 100 (set_C1OUT true (set_TMR1H 9 (set_TMR1L 96
         (set_segments ([255; 8; 255; 0; 0; 129; 255; 129; 0; 0] ++ replicate 25%nat 0)
            10 (initial_state ["H"; "I"]%char)))))).
Proof. vm_compute. reflexivity. Qed.

Example hi_shown :
  exists st',
    main_loop_body []
      (started 100 (set_C1OUT true (set_TMR1H 9 (set_TMR1L 96
         (set_segments ([255; 8; 255; 0; 0; 129; 255; 129; 0; 0] ++ replicate 25%nat 0)
            10 (initial_state ["H"; "I"]%char))))))
    = Ok ([], [(0, 100); (0, 100); (129, 100); (255, 100); (129, 100);
               (0, 100); (0, 100); (255, 100); (8, 100); (255, 100)], st') /\
    PORTC st' = 0 /\ isSequenceRunning st' = 0.
Proof. eexists. split; [vm_compute; reflexivity | split; reflexivity]. Qed.

(** The same sequence cut short: an end edge during the second tick of the
    first frame leaves that frame two ticks and every later frame none;
    all ten patterns are still written, then the LEDs are switched off. *)
Example hi_aborted :
  exists st',
    main_loop_body [None; Some (mkEdge false 64 16)]
      (started 100 (set_C1OUT true (set_TMR1H 9 (set_TMR1L 96
         (set_segments ([255; 8; 255; 0; 0; 129; 255; 129; 0; 0] ++ replicate 25%nat 0)
            10 (initial_state ["H"; "I"]%char))))))
    = Ok ([], [(0, 2); (0, 0); (129, 0); (255, 0); (129, 0);
               (0, 0); (0, 0); (255, 0); (8, 0); (255, 0)], st') /\
    PORTC st' = 0 /\ isSequenceRunning st' = 0 /\ timePerSegment st' = 0.
Proof. eexists. split; [vm_compute; reflexivity | repeat split; reflexivity]. Qed.

(** * Further properties of the code *)

(** ** The encoder on arbitrary storage *)

Lemma char_slots_shape (c : ascii) :
  (c = " "%char /\ char_slots c = 4%nat /\
     forall a idx, switch_case c a idx =
       (a ← store idx 0 a; a ← store idx 0 a; Ok (a, (idx + 2)%nat)))
  \/ (char_slots c = 5%nat /\ exists r0 r1 r2,
        (is_byte r0 /\ is_byte r1 /\ is_byte r2) /\
        forall a idx, switch_case c a idx = put3 r0 r1 r2 a idx)
  \/ (char_slots c = 2%nat /\ forall a idx, switch_case c a idx = Ok (a, idx)).
Proof.
  unfold char_slots, is_byte.
  destruct (switch_case_shape c)
    as [(-> & _ & Hs) | [(-> & r0 & r1 & r2 & _ & Hr & Hs) | (-> & -> & _ & Hs)]].
  - by left.
  - right; left. split; [done |]. exists r0, r1, r2. split; [lia | done].
  - by right; right.
Qed.

Lemma message_slots_app (l1 l2 : list ascii) :
  message_slots (l1 ++ l2) = (message_slots l1 + message_slots l2)%nat.
Proof. induction l1 as [| c l1 IH]; simpl; [done | lia]. Qed.

Lemma message_slots_spec (msg : list ascii) :
  message_slots msg = length (spec_encode msg).
Proof.
  induction msg as [| c msg IH]; simpl; [done |].
  rewrite length_app, <- IH. f_equal. unfold spec_frames, char_slots.
  rewrite length_app.
  destruct (switch_case_shape c)
    as [(-> & -> & _) | [(-> & r0 & r1 & r2 & -> & _) | (-> & -> & -> & _)]];
    reflexivity.
Qed.

(** What one turn of the loop does to storage it can write: the index it
    ends at, the slots it leaves alone, the bytes it keeps. *)
Lemma encode_char_effect (c : ascii) (a a' : list Z) (idx idx' : nat) :
  encode_char c a idx = Ok (a', idx') ->
  idx' = (idx + char_slots c)%nat /\
  (idx' <= length a + 1)%nat /\
  length a' = length a /\
  (forall j, (j < idx \/ idx' - 1 <= j)%nat -> a' !! j = a !! j) /\
  (Forall is_byte a -> Forall is_byte a').
Proof.
  unfold encode_char, spacer. change (bin "00000000") with 0.
  destruct (char_slots_shape c)
    as [(_ & -> & Hs) | [(-> & r0 & r1 & r2 & (Hb0 & Hb1 & Hb2) & Hs) | (-> & Hs)]];
    rewrite Hs; unfold put3; intros H.
  - apply bind_Ok_inv in H as ([a1 i1] & H1 & H). invert_stores. norm_lengths.
    rewrite !length_insert.
    split; [lia |]. split; [lia |]. split; [done |].
    split; [intros j Hj; by lookup_inserts |].
    intros Ha. repeat apply Forall_insert; (done || unfold is_byte; lia).
  - apply bind_Ok_inv in H as ([a1 i1] & H1 & H). invert_stores. norm_lengths.
    rewrite !length_insert.
    split; [lia |]. split; [lia |]. split; [done |].
    split; [intros j Hj; by lookup_inserts |].
    intros Ha. repeat apply Forall_insert; (done || unfold is_byte; lia).
  - simpl in H. invert_stores. norm_lengths. rewrite !length_insert.
    split; [lia |]. split; [lia |]. split; [done |].
    split; [intros j Hj; by lookup_inserts |].
    intros Ha. repeat apply Forall_insert; (done || unfold is_byte; lia).
Qed.

Lemma encode_char_fits (c : ascii) (a : list Z) (idx : nat) :
  (idx + char_slots c <= length a + 1)%nat ->
  exists a', encode_char c a idx = Ok (a', (idx + char_slots c)%nat).
Proof.
  unfold encode_char, spacer. change (bin "00000000") with 0.
  destruct (char_slots_shape c)
    as [(_ & -> & Hs) | [(-> & r0 & r1 & r2 & _ & Hs) | (-> & Hs)]];
    rewrite Hs; unfold put3; intros H.
  - rewrite store_ok by lia. simpl.
    rewrite store_ok by (rewrite ?length_insert; lia). simpl.
    rewrite store_ok by (rewrite ?length_insert; lia). simpl.
    rewrite store_ok by (rewrite ?length_insert; lia). simpl.
    eexists. f_equal; f_equal; lia.
  - rewrite store_ok by lia. simpl.
    rewrite store_ok by (rewrite ?length_insert; lia). simpl.
    rewrite store_ok by (rewrite ?length_insert; lia). simpl.
    rewrite store_ok by (rewrite ?length_insert; lia). simpl.
    rewrite store_ok by (rewrite ?length_insert; lia). simpl.
    eexists. f_equal; f_equal; lia.
  - simpl. rewrite store_ok by lia. simpl.
    rewrite store_ok by (rewrite ?length_insert; lia). simpl.
    eexists. f_equal; f_equal; lia.
Qed.

Lemma encode_loop_app (l1 l2 : list ascii) (a : list Z) (idx : nat) :
  encode_loop (l1 ++ l2) a idx =
    ('(a1, i1) ← encode_loop l1 a idx; encode_loop l2 a1 i1).
Proof.
  revert a idx. induction l1 as [| c l1 IH]; intros a idx; simpl; [done |].
  destruct (encode_char c a idx) as [[a1 i1] | f]; simpl; [apply IH | done].
Qed.

Lemma encode_loop_effect (msg : list ascii) (a a' : list Z) (idx n : nat) :
  encode_loop msg a idx = Ok (a', n) ->
  n = (idx + message_slots msg)%nat /\
  (msg <> [] -> (n <= length a + 1)%nat) /\
  length a' = length a /\
  (forall j, (j < idx \/ n - 1 <= j)%nat -> a' !! j = a !! j) /\
  (Forall is_byte a -> Forall is_byte a').
Proof.
  revert a idx. induction msg as [| c msg IH]; intros a idx H; simpl in H.
  - injection H as <- <-. simpl. split; [lia |]. by repeat split.
  - apply bind_Ok_inv in H as ([a1 i1] & Hc & H).
    apply encode_char_effect in Hc as (-> & Hb & Hl & Hk & Hby).
    apply IH in H as (-> & Hb' & Hl' & Hk' & Hby').
    simpl. split; [lia |].
    split.
    { intros _. destruct msg as [| c' msg']; [simpl; lia |].
      rewrite <- Hl. apply Hb'. done. }
    split; [congruence |].
    split; [| by intros Ha; apply Hby', Hby].
    intros j Hj. rewrite Hk' by lia. apply Hk. lia.
Qed.

Lemma encode_loop_fits (msg : list ascii) (a : list Z) (idx : nat) :
  (msg = [] \/ idx + message_slots msg <= length a + 1)%nat ->
  exists a', encode_loop msg a idx = Ok (a', (idx + message_slots msg)%nat).
Proof.
  revert a idx. induction msg as [| c msg IH]; intros a idx H; simpl.
  - exists a. by rewrite Nat.add_0_r.
  - destruct H as [H | H]; [done |]. simpl in H.
    destruct (encode_char_fits c a idx) as (a1 & Hc); [lia |].
    rewrite Hc. simpl.
    apply encode_char_effect in Hc as (_ & _ & Hl & _).
    destruct (IH a1 (idx + char_slots c)%nat) as (a' & ->).
    { destruct msg; [by left | right; rewrite Hl; lia]. }
    exists a'. do 2 f_equal. lia.
Qed.

(** X1: the frame count the encoder leaves in [lengthOfMessage] depends on
    the message only, whatever the storage held: five slots per letter,
    four per space, two per any other character. *)
Theorem frame_count_law (st st' : state) :
  convertMessageStringToSegments st = Ok st' ->
  lengthOfMessage st' = Z.of_nat (message_slots (messageString st)) /\
  (2 * length (messageString st) <= message_slots (messageString st)
   <= 5 * length (messageString st))%nat.
Proof.
  unfold convertMessageStringToSegments. intros H.
  apply bind_Ok_inv in H as ([a n] & Hrun & H). injection H as <-.
  apply encode_loop_effect in Hrun as (-> & _). simpl.
  split; [done |].
  rewrite message_slots_spec. apply spec_encode_length_bound.
Qed.

Lemma frame_count_law_witness :
  lengthOfMessage
    (set_segments [255; 8; 255; 0; 9; 0; 9; 0; 9; 0; 9; 9] 11
       (set_segments (replicate 12%nat 9) 0 (initial_state ["H"; " "; "?"]%char)))
  = Z.of_nat (message_slots ["H"; " "; "?"]%char).
Proof.
  apply (frame_count_law
           (set_segments (replicate 12%nat 9) 0 (initial_state ["H"; " "; "?"]%char))).
  reflexivity.
Defined.

(** X2: the encoder stays inside [letterSegments] exactly when the message
    is empty or its slots number at most one more than the array has
    (the last slot of the last spacer is counted but never stored to). *)
Theorem encoder_in_bounds_iff (st : state) :
  (exists st', convertMessageStringToSegments st = Ok st') <->
  (messageString st = [] \/
   message_slots (messageString st) <= length (letterSegments st) + 1)%nat.
Proof.
  unfold convertMessageStringToSegments. split.
  - intros (st' & H). apply bind_Ok_inv in H as ([a n] & Hrun & _).
    apply encode_loop_effect in Hrun as (-> & Hb & _).
    destruct (messageString st) as [| c msg]; [by left | right].
    by apply Hb.
  - intros H. destruct (encode_loop_fits (messageString st) (letterSegments st) 0)
      as (a' & ->); [done |].
    by eexists.
Qed.

(** X3: the encoder changes nothing but [letterSegments] and
    [lengthOfMessage]; the array keeps its length, and the slots from
    index [lengthOfMessage - 1] on keep what they held. *)
Theorem encoder_writes_confined (st st' : state) :
  convertMessageStringToSegments st = Ok st' ->
  st' = set_segments (letterSegments st') (lengthOfMessage st') st /\
  length (letterSegments st') = length (letterSegments st) /\
  (forall j : nat,
     lengthOfMessage st' - 1 <= Z.of_nat j ->
     letterSegments st' !! j = letterSegments st !! j).
Proof.
  unfold convertMessageStringToSegments. intros H.
  apply bind_Ok_inv in H as ([a n] & Hrun & H). injection H as <-.
  apply encode_loop_effect in Hrun as (_ & _ & Hl & Hk & _). simpl.
  split; [done |]. split; [done |].
  intros j Hj. apply Hk. lia.
Qed.

Lemma encoder_writes_confined_witness :
  letterSegments
    (set_segments [255; 8; 255; 0; 9; 0; 9; 0; 9; 0; 9; 9] 11
       (set_segments (replicate 12%nat 9) 0 (initial_state ["H"; " "; "?"]%char)))
    !! 10%nat
  = replicate 12%nat 9 !! 10%nat.
Proof.
  apply (encoder_writes_confined
           (set_segments (replicate 12%nat 9) 0 (initial_state ["H"; " "; "?"]%char)));
    [reflexivity | simpl; lia].
Defined.

(** X4: no character's last slot is ever stored to: after encoding, the
    slot just before the place where the next character starts still
    holds what it held before the encoder ran. *)
Theorem last_slot_of_each_char_kept (st st' : state) (pre post : list ascii) (c : ascii) :
  convertMessageStringToSegments st = Ok st' ->
  messageString st = pre ++ c :: post ->
  letterSegments st' !! (message_slots (pre ++ [c]) - 1)%nat
  = letterSegments st !! (message_slots (pre ++ [c]) - 1)%nat.
Proof.
  unfold convertMessageStringToSegments. intros H Hmsg.
  apply bind_Ok_inv in H as ([a n] & Hrun & H). injection H as <-. simpl.
  rewrite Hmsg in Hrun.
  replace (pre ++ c :: post) with ((pre ++ [c]) ++ post) in Hrun
    by (by rewrite <- app_assoc).
  rewrite encode_loop_app in Hrun.
  apply bind_Ok_inv in Hrun as ([a2 i2] & Hpc & Hpost).
  rewrite encode_loop_app in Hpc.
  apply bind_Ok_inv in Hpc as ([a1 i1] & Hpre & Hc). simpl in Hc.
  apply bind_Ok_inv in Hc as ([a2' i2'] & Hc & Heq). injection Heq as -> ->.
  apply encode_loop_effect in Hpre as (-> & _ & _ & Hk1 & _).
  apply encode_char_effect in Hc as (-> & _ & _ & Hk2 & _).
  apply encode_loop_effect in Hpost as (_ & _ & _ & Hk3 & _).
  rewrite message_slots_app. simpl message_slots.
  pose proof (spec_frames_length c) as Hc5.
  assert (Hs : (2 <= char_slots c)%nat).
  { unfold char_slots. destruct (is_letter c), (is_space c); lia. }
  rewrite Hk3 by lia. rewrite Hk2 by lia. apply Hk1. lia.
Qed.

Lemma last_slot_of_each_char_kept_witness :
  letterSegments
    (set_segments [255; 8; 255; 0; 9; 0; 9; 0; 9; 0; 9; 9] 11
       (set_segments (replicate 12%nat 9) 0 (initial_state ["H"; " "; "?"]%char)))
    !! 4%nat
  = replicate 12%nat 9 !! 4%nat.
Proof.
  apply (last_slot_of_each_char_kept
           (set_segments (replicate 12%nat 9) 0 (initial_state ["H"; " "; "?"]%char))
           _ [] [" "; "?"]%char "H"%char); reflexivity.
Defined.

(** X5: the encoder stores only bytes: if every slot of [letterSegments]
    held a byte before, every slot holds one after. *)
Theorem encoder_keeps_bytes (st st' : state) :
  Forall is_byte (letterSegments st) ->
  convertMessageStringToSegments st = Ok st' ->
  Forall is_byte (letterSegments st').
Proof.
  unfold convertMessageStringToSegments. intros Ha H.
  apply bind_Ok_inv in H as ([a n] & Hrun & H). injection H as <-.
  apply encode_loop_effect in Hrun as (_ & _ & _ & _ & Hby). simpl. by apply Hby.
Qed.

Lemma encoder_keeps_bytes_witness :
  Forall is_byte
    (letterSegments
       (set_segments [255; 8; 255; 0; 9; 0; 9; 0; 9; 0; 9; 9] 11
          (set_segments (replicate 12%nat 9) 0 (initial_state ["H"; " "; "?"]%char)))).
Proof.
  apply (encoder_keeps_bytes
           (set_segments (replicate 12%nat 9) 0 (initial_state ["H"; " "; "?"]%char))).
  - simpl. repeat constructor; unfold is_byte; lia.
  - reflexivity.
Defined.

(** ** The interrupt routine, beyond the three branches *)

Lemma ISR_effect (st st' : state) :
  ISR st = Ok st' ->
  messageString st' = messageString st /\
  letterSegments st' = letterSegments st /\
  lengthOfMessage st' = lengthOfMessage st /\
  PORTC st' = PORTC st /\
  C1OUT st' = C1OUT st /\
  TMR1ON st' = true /\
  C1IF st' = false /\
  (delayingVariable st' = delayingVariable st \/
   delayingVariable st' = 1 /\ timePerSegment st' = 0).
Proof.
  rewrite ISR_cases. destruct (C1OUT st) eqn:Hout.
  - destruct (1500 <? read_duration st).
    + destruct (frame_period _ _) as [v | f]; [| discriminate].
      intros [= <-]. simpl. repeat split; (done || by left).
    + intros [= <-]. simpl. repeat split; (done || by left).
  - destruct (14000 <? read_duration st).
    + intros [= <-]. simpl. repeat split; (done || by right).
    + intros [= <-]. simpl. repeat split; (done || by left).
Qed.

(** X6: whatever edge it serves, the routine never touches the message,
    the frames, their count or [PORTC]; it returns with the timer running
    and the interrupt flag cleared. *)
Theorem ISR_leaves_display_alone (st st' : state) :
  ISR st = Ok st' ->
  messageString st' = messageString st /\
  letterSegments st' = letterSegments st /\
  lengthOfMessage st' = lengthOfMessage st /\
  PORTC st' = PORTC st /\
  TMR1ON st' = true /\
  C1IF st' = false.
Proof.
  intros H. apply ISR_effect in H as (H1 & H2 & H3 & H4 & _ & H5 & H6 & _).
  by repeat split.
Qed.

Lemma ISR_leaves_display_alone_witness :
  PORTC (ended (set_PORTC 129 (set_C1OUT false (set_TMR1H 64
            (initial_state main_message)))))
  = PORTC (set_PORTC 129 (set_C1OUT false (set_TMR1H 64 (initial_state main_message)))).
Proof.
  apply (ISR_leaves_display_alone
           (set_PORTC 129 (set_C1OUT false (set_TMR1H 64 (initial_state main_message))))).
  vm_compute. reflexivity.
Defined.

(** X7: in every format that holds the [int]s exactly and has its [2.4]
    in [2, 4) (binary64, binary32 and the 24-bit format among them), a
    start edge with a timer count [1500 < t <= 32767] and [n > 0] frames
    is always served: the routine returns with the quotient of that format
    in [timePerSegment], between 0 and 16384 (the divisor [2.4 * n] is at
    least 2), with the running flag set and TMR1 cleared. *)
Theorem start_edge_period_in_int_range (fmt : double_format) (st : state) (t n : Z) :
  supported_format fmt = true ->
  C1OUT st = true -> timer_count st = t -> lengthOfMessage st = n ->
  1500 < t <= INT_MAX -> 0 < n <= INT_MAX ->
  exists st',
    ISR_in fmt st = Ok st' /\
    0 <= timePerSegment st' <= 16384 /\
    frame_period_in fmt t n = Ok (timePerSegment st') /\
    isSequenceRunning st' = 1 /\
    timer_count st' = 0.
Proof.
  intros Hfmt Hout Ht Hn Hlt Hpos.
  assert (Hd : read_duration st = t).
  { rewrite read_duration_count; rewrite Ht; unfold INT_MIN, INT_MAX in *; lia. }
  destruct (frame_period_in_total fmt t n Hfmt) as (v & Hv & Hr); [lia | lia |].
  rewrite ISR_in_cases, Hout, Hd, Hn.
  destruct (1500 <? t) eqn:E; [| apply Z.ltb_ge in E; lia].
  rewrite Hv. eexists. split; [reflexivity |]. simpl.
  split; [exact Hr |]. by repeat split.
Qed.

Lemma start_edge_period_in_int_range_witness :
  exists st',
    ISR_in truncated24 (at_edge true 32767 1) = Ok st' /\
    0 <= timePerSegment st' <= 16384.
Proof.
  destruct (start_edge_period_in_int_range truncated24 (at_edge true 32767 1) 32767 1)
    as (st' & H1 & H2 & _); try reflexivity; try (unfold INT_MAX; lia).
  exists st'. split; [exact H1 | exact H2].
Defined.

Lemma all_ints_sound (fuel : nat) (p : int -> bool) (t : int) :
  all_ints fuel p t = true ->
  to_Z t + Z.of_nat fuel < wB ->
  forall z, to_Z t <= z < to_Z t + Z.of_nat fuel -> p (of_Z z) = true.
Proof.
  revert t. induction fuel as [| fuel IH]; intros t Hall Hb z Hz; [lia |].
  cbn [all_ints] in Hall. apply andb_prop in Hall as [H1 H2].
  destruct (Z.eq_dec z (to_Z t)) as [-> | Hne].
  - by rewrite Uint63.of_to_Z.
  - apply (IH (t + 1)%uint63 H2); rewrite to_Z_succ; lia.
Qed.

Lemma all_divide_by_zero : all_ints 31267 divides_by_zero 1501 = true.
Proof. vm_cast_no_check (eq_refl true). Qed.

Lemma frame_period_no_frames (t : Z) :
  1500 < t <= INT_MAX -> frame_period t 0 = Fault NotAnInt.
Proof.
  unfold INT_MAX. intros Ht.
  assert (Hd : divides_by_zero (of_Z t) = true).
  { apply (all_ints_sound 31267 divides_by_zero 1501 all_divide_by_zero).
    - vm_compute. reflexivity.
    - change (to_Z 1501) with 1501.
      replace (Z.of_nat 31267) with 31267 by (vm_compute; reflexivity). lia. }
  unfold frame_period, int_to_double.
  destruct (t <? 0) eqn:E; [apply Z.ltb_lt in E; lia |].
  change (0 <? 0) with false. cbv iota. change (of_Z 0) with 0%uint63.
  unfold divides_by_zero in Hd.
  apply andb_prop in Hd as [Hd Hinf]. apply andb_prop in Hd as [Hnan Hzero].
  apply negb_true_iff in Hnan, Hzero.
  unfold double_to_int, Prim2SF. by rewrite Hnan, Hzero, Hinf.
Qed.

(** X8: with no frames ([lengthOfMessage = 0], the empty message) every
    validated start edge divides by zero: the quotient is an infinity,
    which has no [int] value. *)
Theorem start_edge_on_empty_message (st : state) :
  C1OUT st = true -> 1500 < read_duration st -> lengthOfMessage st = 0 ->
  ISR st = Fault NotAnInt.
Proof.
  intros Hout Hlt Hn. pose proof (read_duration_range st).
  rewrite ISR_cases, Hout, Hn.
  destruct (1500 <? read_duration st) eqn:E; [| apply Z.ltb_ge in E; lia].
  by rewrite frame_period_no_frames by lia.
Qed.

Lemma start_edge_on_empty_message_witness :
  ISR (set_C1OUT true (set_TMR1H 100 (initial_state []))) = Fault NotAnInt.
Proof.
  apply (start_edge_on_empty_message (set_C1OUT true (set_TMR1H 100 (initial_state []))));
    [reflexivity | vm_compute; reflexivity | reflexivity].
Defined.

(** X9: [duration] is a 16-bit [int], so a timer count of 32768 or more
    ([TMR1H >= 128]) reads as a negative duration, and the edge is ignored
    whichever way the comparator switched. *)
Theorem late_edge_ignored (st : state) :
  128 <= TMR1H st <= 255 -> 0 <= TMR1L st <= 255 ->
  read_duration st = TMR1L st + 256 * TMR1H st - 65536 /\
  read_duration st < 0 /\
  ISR st = Ok (ignored st).
Proof.
  intros Hh Hl.
  assert (Hd : read_duration st = TMR1L st + 256 * TMR1H st - 65536).
  { unfold read_duration, int_wrap.
    replace (TMR1L st + 256 * TMR1H st + 32768)
      with (TMR1L st + 256 * TMR1H st - 32768 + 1 * 65536) by lia.
    rewrite Z.mod_add by lia. rewrite Z.mod_small by lia. lia. }
  split; [exact Hd |]. split; [lia |].
  rewrite ISR_cases. destruct (C1OUT st).
  - destruct (1500 <? read_duration st) eqn:E; [apply Z.ltb_lt in E; lia | done].
  - destruct (14000 <? read_duration st) eqn:E; [apply Z.ltb_lt in E; lia | done].
Qed.

Lemma late_edge_ignored_witness :
  ISR (set_C1OUT true (set_TMR1H 128 (initial_state main_message)))
  = Ok (ignored (set_C1OUT true (set_TMR1H 128 (initial_state main_message)))).
Proof.
  apply (late_edge_ignored (set_C1OUT true (set_TMR1H 128 (initial_state main_message))));
    simpl; lia.
Defined.

(** X10: the frame period follows the swing: for frame counts of 1 to 45,
    a longer duration never gives a shorter period, and more frames never
    give a longer one. *)
Theorem frame_period_monotone (t1 t2 n1 n2 : Z) :
  1500 < t1 <= t2 -> t2 <= INT_MAX -> 0 < n1 <= n2 -> n2 <= MAX_FRAMES ->
  exists v_short v_long v_many,
    frame_period t1 n1 = Ok v_short /\
    frame_period t2 n1 = Ok v_long /\
    frame_period t2 n2 = Ok v_many /\
    v_short <= v_long /\ v_many <= v_long.
Proof.
  intros Ht Ht2 Hn Hn2.
  rewrite !frame_period_exact by lia.
  rewrite !exact_frame_period_div by lia.
  eexists _, _, _. repeat split.
  - apply Z.div_le_mono; lia.
  - apply Z.div_le_compat_l; lia.
Qed.

Lemma frame_period_monotone_witness :
  exists v_short v_long v_many,
    frame_period 2400 10 = Ok v_short /\
    frame_period 3600 10 = Ok v_long /\
    frame_period 3600 30 = Ok v_many /\
    v_short <= v_long /\ v_many <= v_long.
Proof.
  apply (frame_period_monotone 2400 3600 10 30);
    unfold INT_MAX, MAX_FRAMES; lia.
Defined.

(** ** The delay loop *)

Lemma countdown_closed (k : nat) (ticks : Z) (st : state) :
  delayingVariable st = Z.of_nat k -> Z.of_nat k <= INT_MAX ->
  countdown k ticks st = (ticks + Z.of_nat k, set_delayingVariable 0 st).
Proof.
  revert ticks st. induction k as [| k IH]; intros ticks st Hd Hmax.
  - destruct st. simpl in *. subst. unfold set_delayingVariable. simpl.
    by rewrite Z.add_0_r.
  - cbn [countdown]. unfold delay_condition. rewrite Hd.
    destruct (0 <? Z.of_nat (S k)) eqn:E; [| apply Z.ltb_ge in E; lia].
    rewrite IH.
    + f_equal. lia.
    + unfold delay_decrement. simpl. rewrite Hd.
      rewrite int_wrap_small by (unfold INT_MIN, INT_MAX in *; lia). lia.
    + lia.
Qed.

(** X11: left alone, [delay(d)] makes exactly [d] decrements when [d] is
    positive and ends with [delayingVariable = 0]; for [d <= 0] it makes
    none and leaves [delayingVariable = d].  Nothing else changes. *)
Theorem delay_alone (d : Z) (st : state) :
  d <= INT_MAX ->
  delay d [] st = Ok (Z.max 0 d, [], set_delayingVariable (Z.min 0 d) st).
Proof.
  intros Hmax. unfold delay. cbn [delay_loop]. simpl delayingVariable.
  destruct (Z.le_gt_cases d 0) as [Hle | Hgt].
  - replace (Z.to_nat d) with 0%nat by lia. simpl.
    by rewrite Z.max_l, Z.min_r by lia.
  - rewrite (countdown_closed (Z.to_nat d)) by (simpl; lia).
    rewrite Z.max_r, Z.min_l by lia. simpl. do 3 f_equal. lia.
Qed.

Lemma delay_alone_witness :
  delay 100 [] (initial_state main_message)
  = Ok (Z.max 0 100, [], set_delayingVariable (Z.min 0 100) (initial_state main_message)).
Proof. apply (delay_alone 100). unfold INT_MAX. lia. Defined.

Lemma serve_effect (o : option edge) (st st' : state) :
  serve o st = Ok st' ->
  messageString st' = messageString st /\
  letterSegments st' = letterSegments st /\
  lengthOfMessage st' = lengthOfMessage st /\
  PORTC st' = PORTC st /\
  (delayingVariable st' = delayingVariable st \/
   delayingVariable st' = 1 /\ timePerSegment st' = 0).
Proof.
  destruct o as [e |]; simpl.
  - unfold interrupt. intros H.
    apply ISR_effect in H as (H1 & H2 & H3 & H4 & _ & _ & _ & H5). by repeat split.
  - intros [= <-]. repeat split. by left.
Qed.

Lemma edges_in_nonneg (w : schedule) : 0 <= edges_in w.
Proof. induction w as [| [e |] w IH]; simpl; lia. Qed.

Lemma delay_steps_bound (w : schedule) (p : delay_point) (ticks : Z) (st : state) :
  0 < lengthOfMessage st <= MAX_FRAMES ->
  delayingVariable st <= INT_MAX ->
  (p = AtDecrement -> 1 <= delayingVariable st) ->
  exists k w' st',
    delay_steps w p ticks st = Ok (k, w', st') /\
    ticks + Z.min 1 (Z.max 0 (delayingVariable st)) <= k
      <= ticks + Z.max 0 (delayingVariable st) + edges_in w /\
    delayingVariable st' <= 0.
Proof.
  assert (HM : INT_MAX = 32767) by reflexivity.
  revert p ticks st. induction w as [| o w IH]; intros p ticks st Hn Hd Hp.
  - cbn [delay_steps edges_in]. destruct p.
    + destruct (Z.le_gt_cases (delayingVariable st) 0) as [Hle | Hgt].
      * replace (Z.to_nat (delayingVariable st)) with 0%nat by lia. simpl.
        exists ticks, [], st. split; [done |]. lia.
      * rewrite (countdown_closed (Z.to_nat (delayingVariable st))) by lia.
        eexists _, _, _. split; [reflexivity |]. simpl. lia.
    + specialize (Hp eq_refl).
      assert (Hdec : delayingVariable (delay_decrement st) = delayingVariable st - 1).
      { simpl. apply int_wrap_small. unfold INT_MIN, INT_MAX in *. lia. }
      cbv zeta.
      rewrite (countdown_closed (Z.to_nat (delayingVariable (delay_decrement st))))
        by (rewrite Hdec; lia).
      eexists _, _, _. split; [reflexivity |]. rewrite Hdec. simpl. lia.
  - cbn [delay_steps].
    destruct (serve_total o st Hn) as (st1 & Hs & _ & Hl). rewrite Hs.
    cbn [mbind result_bind].
    assert (Hdv : delayingVariable st1 = delayingVariable st /\ edges_in (o :: w) = edges_in w
                  \/ delayingVariable st1 = delayingVariable st
                     /\ edges_in (o :: w) = 1 + edges_in w
                  \/ delayingVariable st1 = 1 /\ edges_in (o :: w) = 1 + edges_in w).
    { destruct o as [e |].
      - apply serve_effect in Hs as (_ & _ & _ & _ & [H | [H _]]).
        + right. left. done.
        + right. right. done.
      - injection Hs as <-. by left. }
    pose proof (edges_in_nonneg w) as Hw.
    destruct p.
    + unfold delay_condition. destruct (0 <? delayingVariable st1) eqn:E.
      * apply Z.ltb_lt in E.
        destruct (IH AtDecrement ticks st1) as (k & w' & st' & -> & Hk & Hz);
          [by rewrite Hl | lia | lia |].
        exists k, w', st'. split; [done |]. split; [lia | done].
      * apply Z.ltb_ge in E. exists ticks, w, st1. split; [done |]. lia.
    + specialize (Hp eq_refl).
      assert (Hdec : delayingVariable (delay_decrement st1) = delayingVariable st1 - 1).
      { simpl. apply int_wrap_small. unfold INT_MIN, INT_MAX in *. lia. }
      destruct (IH AtTest (ticks + 1) (delay_decrement st1)) as (k & w' & st' & -> & Hk & Hz);
        [simpl; by rewrite Hl | lia | discriminate |].
      exists k, w', st'. split; [done |]. rewrite Hdec in Hk. split; [lia | done].
Qed.

(** X12: an interrupt can shorten a delay and can lengthen it, but cannot
    skip it.  With an interrupt point before every step of [delay(d)],
    under any schedule the loop ends, at a test that finds
    [delayingVariable <= 0], after at least one decrement when [d] is
    positive and after at most [d] decrements plus one for every interrupt
    of the schedule. *)
Theorem delay_preempted_bounds (d : Z) (w : schedule) (st : state) :
  0 < lengthOfMessage st <= MAX_FRAMES -> d <= INT_MAX ->
  exists k w' st',
    delay_preempted d w st = Ok (k, w', st') /\
    Z.min 1 (Z.max 0 d) <= k <= Z.max 0 d + edges_in w /\
    delayingVariable st' <= 0.
Proof.
  intros Hn Hd. unfold delay_preempted. destruct w as [| o w].
  - destruct (delay_steps_bound [] AtTest 0 (set_delayingVariable d st))
      as (k & w' & st' & H & Hk & Hz); [done | done | discriminate |].
    exists k, w', st'. split; [exact H |].
    cbn [delayingVariable set_delayingVariable edges_in] in Hk |- *. split; [lia | done].
  - destruct (serve_total o st Hn) as (st1 & Hs & _ & Hl). rewrite Hs.
    cbn [mbind result_bind].
    destruct (delay_steps_bound w AtTest 0 (set_delayingVariable d st1))
      as (k & w' & st' & H & Hk & Hz); [simpl; by rewrite Hl | done | discriminate |].
    exists k, w', st'. split; [exact H |].
    cbn [delayingVariable set_delayingVariable] in Hk.
    pose proof (edges_in_nonneg w). destruct o; cbn [edges_in]; (split; [lia | done]).
Qed.

Lemma delay_preempted_bounds_witness :
  exists k w' st',
    delay_preempted 3
      [None; None; None; None; None; None; None; Some (mkEdge false 64 16)]
      (at_edge true 0 10) = Ok (k, w', st') /\
    Z.min 1 (Z.max 0 3) <= k
      <= Z.max 0 3
         + edges_in [None; None; None; None; None; None; None; Some (mkEdge false 64 16)] /\
    delayingVariable st' <= 0.
Proof.
  apply (delay_preempted_bounds 3); simpl; unfold MAX_FRAMES, INT_MAX; lia.
Defined.

(** The bounds are met.  [delay(3)] with an end edge just before the test
    that would have ended it makes a fourth decrement; with the edge just
    before the first decrement it makes one. *)
Example delay_lengthened :
  exists st',
    delay_preempted 3
      [None; None; None; None; None; None; None; Some (mkEdge false 64 16)]
      (at_edge true 0 10) = Ok (4, [], st').
Proof. eexists. vm_compute. reflexivity. Qed.

Example delay_shortened :
  exists st',
    delay_preempted 3 [None; None; Some (mkEdge false 64 16)]
      (at_edge true 0 10) = Ok (1, [], st').
Proof. eexists. vm_compute. reflexivity. Qed.

(** An end edge on entry, before [delayingVariable = delayTime], is
    overwritten by the assignment: the delay runs its full length. *)
Example delay_overwrites_end_edge :
  exists st',
    delay_preempted 3 [Some (mkEdge false 64 16)] (at_edge true 0 10) = Ok (3, [], st') /\
    timePerSegment st' = 0.
Proof. eexists. split; vm_compute; reflexivity. Qed.

(** ** Rendering: bounds, what is left untouched *)

Lemma show_frames_out_of_bounds (count : nat) (w : schedule) (shown : list (Z * Z))
    (st : state) :
  (length (letterSegments st) < count)%nat ->
  show_frames count w shown st = Fault (OutOfBounds (count - 1)).
Proof.
  intros H. destruct count as [| i]; [lia |]. cbn [show_frames]. unfold load.
  rewrite lookup_ge_None_2 by lia. simpl. by rewrite Nat.sub_0_r.
Qed.

(** X13: [runLEDSequence] starts at [letterSegments[lengthOfMessage - 1]]
    without a bounds test: when [lengthOfMessage] exceeds the size of the
    array, its first read is out of bounds, before anything is shown. *)
Theorem render_reads_past_the_array (w : schedule) (st : state) :
  Z.of_nat (length (letterSegments st)) < lengthOfMessage st ->
  runLEDSequence w st = Fault (OutOfBounds (Z.to_nat (lengthOfMessage st) - 1)) /\
  (isSequenceRunning st <> 0 ->
   main_loop_body w st = Fault (OutOfBounds (Z.to_nat (lengthOfMessage st) - 1))).
Proof.
  intros H.
  assert (Hr : runLEDSequence w st
               = Fault (OutOfBounds (Z.to_nat (lengthOfMessage st) - 1))).
  { unfold runLEDSequence. by rewrite show_frames_out_of_bounds by lia. }
  split; [exact Hr |].
  intros Hrun. unfold main_loop_body.
  destruct (isSequenceRunning st =? 0) eqn:E; [apply Z.eqb_eq in E; done |].
  by rewrite Hr.
Qed.

Lemma render_reads_past_the_array_witness :
  runLEDSequence [] (set_segments (replicate 35%nat 0) 36 (initial_state []))
  = Fault (OutOfBounds 35).
Proof.
  apply (render_reads_past_the_array []
           (set_segments (replicate 35%nat 0) 36 (initial_state []))).
  simpl. lia.
Defined.

(** X14: a message of exactly 36 slots is the one case where the encoder
    stays inside the 35-byte array (the 36th slot is counted, not stored
    to) and still leaves a frame count the display cannot use: encoding
    succeeds with [lengthOfMessage = 36] and rendering reads
    [letterSegments[35]]. *)
Theorem thirty_six_slots_encode_but_do_not_render (msg : list ascii) :
  message_slots msg = 36%nat ->
  exists st',
    convertMessageStringToSegments (initial_state msg) = Ok st' /\
    lengthOfMessage st' = 36 /\
    forall w, runLEDSequence w st' = Fault (OutOfBounds 35).
Proof.
  intros Hs. unfold convertMessageStringToSegments.
  change (messageString (initial_state msg)) with msg.
  change (letterSegments (initial_state msg)) with (replicate LETTER_SEGMENTS_SIZE 0).
  destruct (encode_loop_fits msg (replicate LETTER_SEGMENTS_SIZE 0) 0) as (a' & Hrun).
  { right. rewrite Hs, length_replicate. unfold LETTER_SEGMENTS_SIZE. lia. }
  rewrite Hrun. cbn [mbind result_bind].
  apply encode_loop_effect in Hrun as (_ & _ & Hl & _).
  rewrite length_replicate in Hl. rewrite Nat.add_0_l, Hs.
  eexists. split; [reflexivity |].
  split; [reflexivity |].
  intros w. unfold runLEDSequence.
  rewrite show_frames_out_of_bounds; [reflexivity |].
  cbn [letterSegments lengthOfMessage set_segments].
  rewrite Hl. unfold LETTER_SEGMENTS_SIZE. lia.
Qed.

Lemma thirty_six_slots_encode_but_do_not_render_witness :
  exists st',
    convertMessageStringToSegments (initial_state (list_ascii_of_string "AAAAAA!!!"))
      = Ok st' /\
    lengthOfMessage st' = 36 /\
    forall w, runLEDSequence w st' = Fault (OutOfBounds 35).
Proof.
  apply (thirty_six_slots_encode_but_do_not_render (list_ascii_of_string "AAAAAA!!!")).
  reflexivity.
Defined.

Lemma delay_loop_effect (w w' : schedule) (ticks k : Z) (st st' : state) :
  delay_loop w ticks st = Ok (k, w', st') ->
  messageString st' = messageString st /\
  letterSegments st' = letterSegments st /\
  lengthOfMessage st' = lengthOfMessage st /\
  PORTC st' = PORTC st /\
  exists used, w = used ++ w'.
Proof.
  revert ticks st. induction w as [| o w IH]; intros ticks st; cbn [delay_loop].
  - pose proof (countdown_keeps (Z.to_nat (delayingVariable st)) ticks st) as (H1 & H2 & _).
    assert (H3 : forall fuel t s, messageString (countdown fuel t s).2 = messageString s
                                  /\ PORTC (countdown fuel t s).2 = PORTC s).
    { induction fuel as [| fuel IHf]; intros t s; simpl; [done |].
      destruct (delay_condition s); [| done].
      destruct (IHf (t + 1) (delay_decrement s)) as [-> ->]. done. }
    destruct (H3 (Z.to_nat (delayingVariable st)) ticks st) as [H4 H5].
    destruct (countdown _ ticks st) as [k0 st0]. intros [= <- <- <-].
    repeat split; try done. by exists [].
  - destruct (delay_condition st).
    + intros H. apply bind_Ok_inv in H as (st1 & Hs & H).
      apply serve_effect in Hs as (H1 & H2 & H3 & H4 & _).
      apply IH in H as (H1' & H2' & H3' & H4' & used & ->). simpl in *.
      repeat split; try congruence. by exists (o :: used).
    + intros [= <- <- <-]. repeat split. by exists [].
Qed.

Lemma show_frames_effect (count : nat) (w w' : schedule) (shown shown' : list (Z * Z))
    (st st' : state) :
  show_frames count w shown st = Ok (w', shown', st') ->
  messageString st' = messageString st /\
  letterSegments st' = letterSegments st /\
  lengthOfMessage st' = lengthOfMessage st /\
  (exists used, w = used ++ w') /\
  length shown' = (length shown + count)%nat.
Proof.
  revert w shown st. induction count as [| i IH]; intros w shown st; cbn [show_frames].
  - intros [= <- <- <-]. repeat split; [by exists [] | lia].
  - intros H. apply bind_Ok_inv in H as (v & _ & H). simpl in H.
    apply bind_Ok_inv in H as ([[k w1] st1] & Hd & H).
    unfold delay in Hd.
    apply delay_loop_effect in Hd as (H1 & H2 & H3 & _ & used1 & ->). simpl in *.
    apply IH in H as (H1' & H2' & H3' & (used2 & ->) & Hlen).
    repeat split; try congruence.
    + exists (used1 ++ used2). by rewrite app_assoc.
    + rewrite Hlen, length_app. simpl. lia.
Qed.

(** X16: one turn of the main loop, whatever interrupts it serves, never
    changes the message, the frames or their count; it serves the
    interrupts of the schedule in order and hands the rest back; and it
    writes one pattern per frame when the running flag is set, none
    otherwise. *)
Theorem main_loop_keeps_frames (w w' : schedule) (shown : list (Z * Z)) (st st' : state) :
  main_loop_body w st = Ok (w', shown, st') ->
  messageString st' = messageString st /\
  letterSegments st' = letterSegments st /\
  lengthOfMessage st' = lengthOfMessage st /\
  (exists used, w = used ++ w') /\
  length shown = if isSequenceRunning st =? 0 then 0%nat
                 else Z.to_nat (lengthOfMessage st).
Proof.
  unfold main_loop_body, runLEDSequence.
  destruct (isSequenceRunning st =? 0).
  - intros [= <- <- <-]. repeat split. by exists [].
  - intros H. apply bind_Ok_inv in H as ([[w1 shown1] st1] & H & Heq).
    apply bind_Ok_inv in H as ([[w2 shown2] st2] & H & Heq2).
    injection Heq2 as <- <- <-. injection Heq as <- <- <-.
    apply show_frames_effect in H as (H1 & H2 & H3 & H4 & H5). simpl in *.
    by repeat split.
Qed.

Lemma main_loop_keeps_frames_witness :
  length [(0, 2); (0, 0); (129, 0); (255, 0); (129, 0);
          (0, 0); (0, 0); (255, 0); (8, 0); (255, 0)]
  = if isSequenceRunning
         (started 100 (set_segments
            ([255; 8; 255; 0; 0; 129; 255; 129; 0; 0] ++ replicate 25%nat 0)
            10 (initial_state ["H"; "I"]%char))) =? 0
    then 0%nat
    else Z.to_nat (lengthOfMessage
           (started 100 (set_segments
              ([255; 8; 255; 0; 0; 129; 255; 129; 0; 0] ++ replicate 25%nat 0)
              10 (initial_state ["H"; "I"]%char)))).
Proof.
  eapply (main_loop_keeps_frames [None; Some (mkEdge false 64 16)]).
  vm_compute. reflexivity.
Defined.

(** ** From a swing to the display *)

Lemma show_frames_undisturbed (count : nat) (shown : list (Z * Z)) (st : state) :
  (count <= length (letterSegments st))%nat ->
  0 <= timePerSegment st <= INT_MAX ->
  exists st',
    show_frames count [] shown st =
      Ok ([], shown ++ ((fun v => (v, timePerSegment st))
                          <$> reverse (take count (letterSegments st))), st') /\
    timePerSegment st' = timePerSegment st.
Proof.
  revert shown st. induction count as [| i IH]; intros shown st Hlen Ht; cbn [show_frames].
  - exists st. by rewrite app_nil_r.
  - destruct (lookup_lt_is_Some_2 (letterSegments st) i) as [v Hv]; [lia |].
    unfold load. rewrite Hv. cbn [mbind result_bind].
    unfold delay. cbn [delay_loop]. simpl delayingVariable.
    rewrite (countdown_closed (Z.to_nat (timePerSegment st))) by (simpl; lia).
    cbn [mbind result_bind].
    match goal with
    | |- context [show_frames i [] ?sh ?s] =>
        destruct (IH sh s) as (st' & Hs & Ht'); [simpl; lia | simpl; lia |]
    end.
    rewrite Hs. exists st'. split; [| done]. simpl.
    rewrite (take_S_r _ _ _ Hv), reverse_snoc, fmap_cons, <- app_assoc.
    rewrite Z2Nat.id by lia. done.
Qed.

(** X17: from idle to the display, in every format that holds the [int]s
    exactly (binary64, binary32 and the 24-bit format among them): when a
    start edge with a timer count [1500 < t <= 32767] arrives before a turn
    of the main loop and nothing interrupts the rendering, that turn shows
    the [n] frames last to first, each for the [v] ticks the division
    [t / (2.4 * n)] yields in that format, and ends with [PORTC = 0] and
    the running flag cleared. *)
Theorem swing_shows_message_in (fmt : double_format) (e : edge) (st : state) (t n : Z) :
  supported_format fmt = true ->
  edge_C1OUT e = true ->
  edge_TMR1L e + 256 * edge_TMR1H e = t -> 1500 < t <= INT_MAX ->
  lengthOfMessage st = n -> 0 < n <= INT_MAX ->
  (Z.to_nat n <= length (letterSegments st))%nat ->
  exists v st',
    frame_period_in fmt t n = Ok v /\
    main_loop_turn_in fmt (Some e) st =
      Ok ([], (fun x => (x, v)) <$> reverse (frames st), st') /\
    PORTC st' = 0 /\
    isSequenceRunning st' = 0 /\
    timePerSegment st' = v.
Proof.
  intros Hfmt Hout Ht Hlt Hn Hpos Hlen.
  destruct (frame_period_in_total fmt t n Hfmt) as (v & Hv & Hr); [lia | lia |].
  exists v.
  unfold main_loop_turn_in, interrupt_in. rewrite ISR_in_cases.
  cbn [C1OUT set_C1IF set_TMR1L set_TMR1H set_C1OUT lengthOfMessage].
  rewrite Hout. unfold read_duration.
  cbn [TMR1L TMR1H set_C1IF set_TMR1L set_TMR1H set_C1OUT].
  rewrite Ht, int_wrap_small by (unfold INT_MIN, INT_MAX in *; lia). rewrite Hn.
  destruct (1500 <? t) eqn:E; [| apply Z.ltb_ge in E; lia].
  rewrite Hv. cbn [mbind result_bind].
  unfold main_loop_body, runLEDSequence, frames.
  cbn [isSequenceRunning started lengthOfMessage]. change (1 =? 0) with false. cbv iota.
  match goal with
  | |- context [show_frames ?c [] [] ?s] =>
      destruct (show_frames_undisturbed c [] s) as (st' & Hshow & Ht');
        [simpl; by rewrite Hn | simpl; unfold INT_MAX; lia |]
  end.
  rewrite Hshow. cbn [mbind result_bind].
  eexists. split; [done |]. split; [simpl; by rewrite Hn |]. by repeat split.
Qed.

Lemma swing_shows_message_in_witness :
  exists st',
    main_loop_turn_in binary32 (Some (mkEdge true 6 144))
      (set_segments ([255; 8; 255; 0; 0; 0; 0] ++ replicate 28%nat 0) 7
         (initial_state ["H"; "!"]%char))
    = Ok ([], (fun x => (x, 99)) <$> reverse [255; 8; 255; 0; 0; 0; 0], st') /\
    PORTC st' = 0 /\
    isSequenceRunning st' = 0 /\
    timePerSegment st' = 99.
Proof.
  destruct (swing_shows_message_in binary32 (mkEdge true 6 144)
              (set_segments ([255; 8; 255; 0; 0; 0; 0] ++ replicate 28%nat 0) 7
                 (initial_state ["H"; "!"]%char)) 1680 7)
    as (v & st' & Hv & H1 & H2 & H3 & H4);
    try reflexivity; try (unfold INT_MAX; lia); [simpl; lia |].
  assert (Hv99 : v = 99) by (vm_compute in Hv; by injection Hv as <-).
  rewrite Hv99 in H1, H4.
  exists st'. split; [exact H1 |]. split; [exact H2 |]. split; [exact H3 | exact H4].
Defined.

(** ** Composition *)

(** X18: encoding preserves the order of the characters: the frame
    sequence of a concatenated message is the frame sequence of the first
    part followed by that of the second (each encoded from blank
    storage). *)
Theorem frames_of_concatenation (l1 l2 : list ascii) :
  (message_slots (l1 ++ l2) <= LETTER_SEGMENTS_SIZE)%nat ->
  exists st1 st2 st12,
    convertMessageStringToSegments (initial_state l1) = Ok st1 /\
    convertMessageStringToSegments (initial_state l2) = Ok st2 /\
    convertMessageStringToSegments (initial_state (l1 ++ l2)) = Ok st12 /\
    frames st12 = frames st1 ++ frames st2 /\
    lengthOfMessage st12 = lengthOfMessage st1 + lengthOfMessage st2.
Proof.
  intros H. rewrite message_slots_app in H.
  destruct (convert_initial l1) as (st1 & H1 & _ & Hn1 & _ & Hf1);
    [rewrite <- message_slots_spec; lia |].
  destruct (convert_initial l2) as (st2 & H2 & _ & Hn2 & _ & Hf2);
    [rewrite <- message_slots_spec; lia |].
  destruct (convert_initial (l1 ++ l2)) as (st12 & H12 & _ & Hn12 & _ & Hf12);
    [rewrite <- message_slots_spec, message_slots_app; lia |].
  exists st1, st2, st12. repeat split; try done.
  - by rewrite Hf12, Hf1, Hf2, spec_encode_app.
  - rewrite Hn12, Hn1, Hn2, spec_encode_app, length_app. lia.
Qed.

Lemma frames_of_concatenation_witness :
  exists st1 st2 st12,
    convertMessageStringToSegments (initial_state ["H"; "I"]%char) = Ok st1 /\
    convertMessageStringToSegments (initial_state [" "; "!"]%char) = Ok st2 /\
    convertMessageStringToSegments (initial_state (["H"; "I"] ++ [" "; "!"])%char) = Ok st12 /\
    frames st12 = frames st1 ++ frames st2 /\
    lengthOfMessage st12 = lengthOfMessage st1 + lengthOfMessage st2.
Proof.
  apply (frames_of_concatenation ["H"; "I"]%char [" "; "!"]%char).
  vm_compute. lia.
Defined.

(** X19: debounce after a validated edge: a validated edge leaves the
    timer at 0, so an edge served again before the timer has advanced is
    ignored, whichever way the comparator switched. *)
Theorem edge_right_after_validated_edge_ignored (st st' : state) (c : bool) :
  ISR st = Ok st' ->
  (if C1OUT st then 1500 else 14000) < read_duration st ->
  read_duration st' = 0 /\
  ISR (set_C1OUT c st') = Ok (ignored (set_C1OUT c st')).
Proof.
  rewrite ISR_cases. intros H Hlt.
  assert (Hd : read_duration st' = 0).
  { destruct (C1OUT st).
    - destruct (1500 <? read_duration st) eqn:E; [| apply Z.ltb_ge in E; lia].
      destruct (frame_period _ _) as [v | f]; [| discriminate].
      by injection H as <-.
    - destruct (14000 <? read_duration st) eqn:E; [| apply Z.ltb_ge in E; lia].
      by injection H as <-. }
  split; [exact Hd |].
  rewrite ISR_cases.
  change (read_duration (set_C1OUT c st')) with (read_duration st'). rewrite Hd.
  by destruct (C1OUT (set_C1OUT c st')).
Qed.

Lemma edge_right_after_validated_edge_ignored_witness :
  ISR (set_C1OUT true (ended (set_C1OUT false (set_TMR1H 64 (initial_state main_message)))))
  = Ok (ignored (set_C1OUT true
          (ended (set_C1OUT false (set_TMR1H 64 (initial_state main_message)))))).
Proof.
  apply (edge_right_after_validated_edge_ignored
           (set_C1OUT false (set_TMR1H 64 (initial_state main_message)))).
  - vm_compute. reflexivity.
  - vm_compute. reflexivity.
Defined.

(** X20: the routine raises the running flag and never lowers it: from a
    cleared flag it returns with the flag set exactly when it served a
    start edge with [duration > 1500]; a set flag stays set, also through a
    validated end edge (only [main] clears it). *)
Theorem ISR_only_raises_the_flag (st st' : state) :
  ISR st = Ok st' ->
  (isSequenceRunning st' = 1 \/ isSequenceRunning st' = isSequenceRunning st) /\
  (isSequenceRunning st <> 0 -> isSequenceRunning st' <> 0) /\
  (isSequenceRunning st = 0 ->
   (isSequenceRunning st' = 1 <-> C1OUT st = true /\ 1500 < read_duration st)).
Proof.
  rewrite ISR_cases. destruct (C1OUT st).
  - destruct (1500 <? read_duration st) eqn:E.
    + apply Z.ltb_lt in E.
      destruct (frame_period _ _) as [v | f]; [| discriminate].
      intros [= <-]. simpl. split; [by left |]. split; [done |].
      intros _. split; done.
    + apply Z.ltb_ge in E. intros [= <-]. simpl.
      split; [by right |]. split; [done |].
      intros H0. rewrite H0. split; [done | lia].
  - destruct (14000 <? read_duration st); intros [= <-]; simpl;
      (split; [by right |]; split; [done |]);
      intros H0; rewrite H0; (split; [done | by intros [? _]]).
Qed.

Lemma ISR_only_raises_the_flag_witness :
  isSequenceRunning
    (ended (set_isSequenceRunning 1 (set_C1OUT false (set_TMR1H 64
              (initial_state main_message))))) <> 0.
Proof.
  apply (ISR_only_raises_the_flag
           (set_isSequenceRunning 1 (set_C1OUT false (set_TMR1H 64
              (initial_state main_message))))).
  - vm_compute. reflexivity.
  - simpl. lia.
Defined.
